(** * M3U8-BOT: the queue-driven download pipeline of [bot.py]

    A shallow embedding of the message parser, the cursor-based update
    loop, the manifest-to-segment-list step, the download attempt with its
    cleanup, and the retry loop of [main_loop], followed by the properties
    of the specification that these definitions settle. *)

From Stdlib Require Import ZArith NArith Ascii String List Bool Lia.
From stdpp Require Import base option list gmap.
Import ListNotations.

#[local] Set Warnings "-clear-no-such-hyp".
Local Open Scope N_scope.

(** ** Python strings

    A Python [str] is a sequence of Unicode code points.  The functions
    below are the fragments of the [str] and [re] interfaces that [bot.py]
    calls, written over lists of code points. *)

Module PyStr.

Definition char : Type := N.
Definition str : Type := list char.

(** An ASCII literal of the source as a [str]. *)
Definition lit (s : string) : str :=
  List.map N_of_ascii (list_ascii_of_string s).

(** [c.isspace()] for one character, the test used by [str.strip()]:
    U+0009..U+000D, U+001C..U+0020, U+0085, U+00A0, U+1680,
    U+2000..U+200A, U+2028, U+2029, U+202F, U+205F, U+3000. *)
Definition isspace (c : char) : bool :=
  ((9 <=? c) && (c <=? 13)) || ((28 <=? c) && (c <=? 32))
  || (c =? 133) || (c =? 160) || (c =? 5760)
  || ((8192 <=? c) && (c <=? 8202))
  || (c =? 8232) || (c =? 8233) || (c =? 8239) || (c =? 8287)
  || (c =? 12288).

(** The line boundaries of [str.splitlines()]:
    LF, VT, FF, CR, FS, GS, RS, NEL, LS, PS. *)
Definition islinebreak (c : char) : bool :=
  ((10 <=? c) && (c <=? 13)) || ((28 <=? c) && (c <=? 30))
  || (c =? 133) || (c =? 8232) || (c =? 8233).

Fixpoint lstrip (s : str) : str :=
  match s with
  | [] => []
  | c :: r => if isspace c then lstrip r else s
  end.

Definition rstrip (s : str) : str := rev (lstrip (rev s)).

(** [s.strip()] *)
Definition strip (s : str) : str := rstrip (lstrip s).

(** [s.startswith(p)] *)
Fixpoint startswith (p s : str) : bool :=
  match p, s with
  | [], _ => true
  | _ :: _, [] => false
  | a :: p', b :: s' => (a =? b) && startswith p' s'
  end.

(** [s.endswith(p)] *)
Definition endswith (p s : str) : bool := startswith (rev p) (rev s).

(** [s.split(sep, 1)] for a one-character separator that occurs in [s]:
    the text before the first occurrence and the text after it.  [None]
    when [sep] does not occur, which is the case [sep in s] is false. *)
Fixpoint split_once (sep : char) (s : str) : option (str * str) :=
  match s with
  | [] => None
  | c :: r =>
      if c =? sep then Some ([], r)
      else match split_once sep r with
           | Some (h, t) => Some (c :: h, t)
           | None => None
           end
  end.

(** [s.rsplit(sep, 1)[0]]: the text before the last occurrence of [sep],
    the whole of [s] when [sep] does not occur. *)
Definition rsplit_head (sep : char) (s : str) : str :=
  match split_once sep (rev s) with
  | Some (_, h) => rev h
  | None => s
  end.

(** [s.splitlines()]: [cur] holds the current line, reversed.  A CR LF
    pair is one boundary, and a trailing boundary opens no last line. *)
Fixpoint splitlines_from (cur : str) (s : str) : list str :=
  match s with
  | [] => match cur with [] => [] | _ :: _ => [rev cur] end
  | c :: r =>
      if islinebreak c then
        rev cur ::
          match r with
          | d :: r' =>
              if (c =? 13) && (d =? 10) then splitlines_from [] r'
              else splitlines_from [] r
          | [] => splitlines_from [] r
          end
      else splitlines_from (c :: cur) r
  end.

Definition splitlines (s : str) : list str := splitlines_from [] s.

End PyStr.

Import PyStr.

(** ** Configuration constants *)

Definition MAX_RETRIES : nat := 3.
Definition POLL_INTERVAL : nat := 5.
Definition DRIVE_FOLDER : str := lit "/content/drive/MyDrive/M3U8".
Definition ARIA2_OPTIONS : list str :=
  [lit "-x"; lit "16"; lit "-s"; lit "16"; lit "--continue=true";
   lit "--auto-file-renaming=false"].

(** ** The job parser *)

(** The character class of the pattern in [clean_filename]: backslash,
    slash, star, question mark, colon, double quote, the two angle
    brackets and the vertical bar. *)
Definition illegal (c : char) : bool :=
  (c =? 92) || (c =? 47) || (c =? 42) || (c =? 63) || (c =? 58)
  || (c =? 34) || (c =? 60) || (c =? 62) || (c =? 124).

(** [re.sub] with the empty replacement: every match of the class is
    deleted. *)
Definition re_sub_illegal (name : str) : str :=
  List.filter (fun c => negb (illegal c)) name.

Definition clean_filename (name : str) : str := strip (re_sub_illegal name).

Definition bar : char := 124.

(** The acceptance test of a link: [startswith] on the scheme prefix and
    [endswith] on the playlist extension. *)
Definition is_m3u8_link (link : str) : bool :=
  startswith (lit "http") link && endswith (lit ".m3u8") link.

(** [parse_message_text]: the pair [(link, filename_or_None)], with
    [(None, None)] for a rejected text. *)
Definition parse_message_text (text : str) : option str * option str :=
  match split_once bar text with
  | Some (part0, part1) =>
      let name := clean_filename part0 in
      let link := strip part1 in
      if is_m3u8_link link then (Some link, Some (name ++ lit ".mp4"))
      else (None, None)
  | None =>
      let link := strip text in
      if is_m3u8_link link then (Some link, None) else (None, None)
  end.

(** ** The segment list of a manifest *)

Definition slash : char := 47.

(** [m3u8_url.rsplit("/", 1)[0] + "/"] *)
Definition base_url (m3u8_url : str) : str :=
  rsplit_head slash m3u8_url ++ lit "/".

(** The [for line in m3u8_content.splitlines()] loop; [chunk_urls] is the
    list built so far, extended by [append]. *)
Fixpoint collect_chunks (base : str) (lines : list str) (chunk_urls : list str)
  : list str :=
  match lines with
  | [] => chunk_urls
  | raw :: rest =>
      let line := strip raw in
      match line with
      | [] => collect_chunks base rest chunk_urls
      | _ :: _ =>
          if startswith (lit "#") line then collect_chunks base rest chunk_urls
          else if startswith (lit "http") line
               then collect_chunks base rest (chunk_urls ++ [line])
               else collect_chunks base rest (chunk_urls ++ [base ++ line])
      end
  end.

Definition chunk_urls_of (m3u8_url m3u8_content : str) : list str :=
  collect_chunks (base_url m3u8_url) (splitlines m3u8_content) [].

(** ** Observable events *)

(** The texts handed to [send_telegram_message], by the place that sends
    them, with the values interpolated into the text. *)
Inductive notification : Type :=
| BotActive
| LinkQueued (link : str) (pos total : nat)
| StartingDownload (m3u8_url : str) (remaining : nat)
| AttemptStarted (attempt max_retries : nat)
| DownloadComplete (filename : str) (remaining : nat)
| AttemptFailed (attempt : nat) (m3u8_url : str)
| AllAttemptsFailed (m3u8_url : str) (remaining : nat).

(** A command given to [safe_run]: an argument vector, or a shell line. *)
Inductive command : Type :=
| Argv (args : list str)
| Shell (line : str).

Inductive event : Type :=
| ENotify (n : notification)           (* send_telegram_message *)
| ESleep (seconds : nat)               (* time.sleep *)
| EDownload (m3u8_url out_path : str)  (* a call of download_and_merge *)
| EGet (url : str)                     (* requests.get *)
| EWrite (path : str) (pieces : list str) (* a text file and what is written to it *)
| ERun (c : command)                   (* safe_run *)
| ECopy (src dst : str).               (* shutil.copy, when it returns *)

(** ** A download attempt *)

(** What the world outside the process answers during one attempt.  The
    working directory is the set of paths that exist in it. *)
Inductive write_outcome : Type :=
| Written       (* the file exists and holds the text *)
| OpenFailed    (* [open] raised, no file was created *)
| WriteFailed.  (* the file was created and [write] raised *)

(** [os.makedirs] followed by [shutil.copy], which copies the content and
    then the permission bits. *)
Inductive copy_outcome : Type :=
| Copied         (* both returned, the destination holds the file *)
| CopyFailed     (* one of them raised before the destination was written *)
| CopyLeftFile.  (* [shutil.copy] raised after the destination was written *)

Record attempt_env : Type := {
  (** [requests.get] followed by [raise_for_status]: the body, or [None]
      when either raises. *)
  http_get : str -> option str;
  write_file : str -> write_outcome;
  (** [subprocess.run]: whether the return code is zero, and what the
      command leaves in the working directory. *)
  cmd_ok : command -> bool;
  cmd_fs : command -> gset str -> gset str;
  (** [os.makedirs] and [shutil.copy] to the destination. *)
  copy_file : copy_outcome;
  (** whether [shutil.rmtree] or [os.remove] of a path succeeds. *)
  remove_ok : str -> bool
}.

Inductive outcome (A : Type) : Type :=
| Ok (a : A)
| Raised.
Arguments Ok {A} a.
Arguments Raised {A}.

(** Statements of the [try] body: they read and change the working
    directory, append to the event log, and may raise. *)
Definition M (A : Type) : Type := gset str -> outcome A * gset str * list event.

Definition ret {A} (a : A) : M A := fun fs => (Ok a, fs, []).
Definition raise {A} : M A := fun fs => (Raised, fs, []).
Definition bind {A B} (m : M A) (k : A -> M B) : M B :=
  fun fs =>
    match m fs with
    | (Ok a, fs1, tr1) =>
        match k a fs1 with
        | (r, fs2, tr2) => (r, fs2, tr1 ++ tr2)
        end
    | (Raised, fs1, tr1) => (Raised, fs1, tr1)
    end.

#[global] Instance M_ret : MRet M := @ret.
#[global] Instance M_bind : MBind M := fun A B k m => bind m k.

Definition log (ev : event) : M unit := fun fs => (Ok tt, fs, [ev]).

Definition fetch (e : attempt_env) (url : str) : M str :=
  log (EGet url) ;;
  match http_get e url with
  | Some body => ret body
  | None => raise
  end.

(** [with open(path, "w") as f: ...] *)
Definition write_text (e : attempt_env) (path : str) (lines : list str) : M unit :=
  fun fs =>
    match write_file e path with
    | Written => (Ok tt, {[path]} ∪ fs, [EWrite path lines])
    | OpenFailed => (Raised, fs, [])
    | WriteFailed => (Raised, {[path]} ∪ fs, [])
    end.

(** [safe_run]: run the command, raise on a non-zero return code. *)
Definition safe_run (e : attempt_env) (c : command) : M unit :=
  fun fs =>
    (if cmd_ok e c then Ok tt else Raised, cmd_fs e c fs, [ERun c]).

Definition copy_to (e : attempt_env) (src dst : str) : M unit :=
  fun fs =>
    match copy_file e with
    | Copied => (Ok tt, {[dst]} ∪ fs, [ECopy src dst])
    | CopyFailed => (Raised, fs, [])
    | CopyLeftFile => (Raised, {[dst]} ∪ fs, [])
    end.

Definition aria_cmd : command :=
  Argv ([lit "aria2c"] ++ ARIA2_OPTIONS
        ++ [lit "-i"; lit "chunks.txt"; lit "-d"; lit "chunks"]).
Definition cat_cmd : command := Shell (lit "cat chunks/*.ts > temp.ts").
Definition ffmpeg_cmd : command :=
  Argv [lit "ffmpeg"; lit "-y"; lit "-i"; lit "temp.ts"; lit "-c"; lit "copy";
        lit "-bsf:a"; lit "aac_adtstoasc"; lit "output.mp4"].

(** The [try] block of [download_and_merge]. *)
Definition try_block (m3u8_url out_path : str) (e : attempt_env) : M bool :=
  m3u8_content ← fetch e m3u8_url;
  write_text e (lit "playlist.m3u8") [m3u8_content] ;;
  let chunk_urls := chunk_urls_of m3u8_url m3u8_content in
  match chunk_urls with
  | [] => raise
  | _ :: _ =>
      write_text e (lit "chunks.txt") chunk_urls ;;
      safe_run e aria_cmd ;;
      safe_run e cat_cmd ;;
      safe_run e ffmpeg_cmd ;;
      copy_to e (lit "output.mp4") out_path ;;
      ret true
  end.

(** [shutil.rmtree(p)]: the directory and everything below it. *)
Definition rmtree (p : str) (fs : gset str) : gset str :=
  filter (fun q => q ≠ p ∧ startswith (p ++ lit "/") q = false) fs.

(** The [finally] block.  The removals run in order inside a [try] whose
    handler is [pass]: the first removal that raises ends the block and
    leaves the rest of the working directory as it is. *)
Fixpoint remove_files (e : attempt_env) (files : list str) (fs : gset str)
  : gset str :=
  match files with
  | [] => fs
  | f :: rest =>
      if decide (f ∈ fs) then
        if remove_ok e f then remove_files e rest (fs ∖ {[f]}) else fs
      else remove_files e rest fs
  end.

Definition cleanup (e : attempt_env) (fs : gset str) : gset str :=
  let files := [lit "temp.ts"; lit "playlist.m3u8"; lit "chunks.txt";
                lit "output.mp4"] in
  if decide (lit "chunks" ∈ fs) then
    if remove_ok e (lit "chunks")
    then remove_files e files (rmtree (lit "chunks") fs)
    else fs
  else remove_files e files fs.

(** [download_and_merge]: [True] when the [try] block returns, [False] when
    it raises; the [finally] block runs in both cases. *)
Definition download_and_merge (m3u8_url out_path : str) (e : attempt_env)
  (fs : gset str) : bool * gset str * list event :=
  match try_block m3u8_url out_path e fs with
  | (Ok b, fs1, tr) => (b, cleanup e fs1, tr)
  | (Raised, fs1, tr) => (false, cleanup e fs1, tr)
  end.

(** ** The main loop *)

(** One record of [getUpdates]: its identifier, and the text of its
    message when it has a message with a text. *)
Record update : Type := {
  update_id : Z;
  text : option str
}.

(** A queued job: the link and the custom file name, if any. *)
Definition job : Type := str * option str.

Record state : Type := {
  last_update_id : option Z;
  queue : list job;
  workdir : gset str
}.

(** [last_update_id is None or update_id > last_update_id] *)
Definition is_new (cursor : option Z) (uid : Z) : bool :=
  match cursor with
  | None => true
  | Some last => (last <? uid)%Z
  end.

(** The body of [for msg in updates.get("result", [])]. *)
Definition handle_update (s : state) (msg : update) : state * list event :=
  if is_new (last_update_id s) (update_id msg) then
    let s1 := {| last_update_id := Some (update_id msg);
                 queue := queue s; workdir := workdir s |} in
    match text msg with
    | Some t =>
        match parse_message_text t with
        | (Some (c :: l), fname) =>
            let link := c :: l in
            let q := queue s ++ [(link, fname)] in
            let pos := length q in
            ({| last_update_id := Some (update_id msg);
                queue := q; workdir := workdir s |},
             [ENotify (LinkQueued link pos (length q))])
        | _ => (s1, [])
        end
    | None => (s1, [])
    end
  else (s, []).

Fixpoint process_updates (s : state) (result : list update)
  : state * list event :=
  match result with
  | [] => (s, [])
  | msg :: rest =>
      let '(s1, tr1) := handle_update s msg in
      let '(s2, tr2) := process_updates s1 rest in
      (s2, tr1 ++ tr2)
  end.

(** The [try] around [get_updates()]: [None] is a poll that raised, which
    is printed and otherwise ignored. *)
Definition poll_phase (s : state) (resp : option (list update))
  : state * list event :=
  match resp with
  | Some result => process_updates s result
  | None => (s, [])
  end.

(** The cursor set before the loop: the identifier of the last record of
    the first poll, [None] when the poll raised or returned nothing. *)
Definition startup_cursor (resp : option (list update)) : option Z :=
  match resp with
  | Some result =>
      match last result with
      | Some msg => Some (update_id msg)
      | None => None
      end
  | None => None
  end.

(** [os.path.join(a, b)] on POSIX paths. *)
Definition path_join (a b : str) : str :=
  if startswith (lit "/") b then b
  else match a with
       | [] => b
       | _ :: _ => if endswith (lit "/") a then a ++ b else a ++ lit "/" ++ b
       end.

(** The [for attempt in range(1, MAX_RETRIES + 1)] loop over the attempt
    numbers still to run; the result is the final value of [success]. *)
Fixpoint attempt_loop (attempts : list nat) (m3u8_url dest_path filename : str)
  (remaining : nat) (envs : nat -> attempt_env) (fs : gset str)
  : bool * gset str * list event :=
  match attempts with
  | [] => (false, fs, [])
  | attempt :: rest =>
      let '(ok, fs1, tr) :=
        download_and_merge m3u8_url dest_path (envs attempt) fs in
      let started :=
        [ENotify (AttemptStarted attempt MAX_RETRIES);
         EDownload m3u8_url dest_path] ++ tr in
      if ok then
        (true, fs1, started ++ [ENotify (DownloadComplete filename remaining)])
      else
        let '(success, fs2, tr2) :=
          attempt_loop rest m3u8_url dest_path filename remaining envs fs1 in
        (success, fs2,
         started ++ [ENotify (AttemptFailed attempt m3u8_url); ESleep 5] ++ tr2)
  end.

Definition retry (m3u8_url dest_path filename : str) (remaining : nat)
  (envs : nat -> attempt_env) (fs : gset str) : bool * gset str * list event :=
  attempt_loop (seq 1 MAX_RETRIES) m3u8_url dest_path filename remaining envs fs.

(** What one iteration of [while True] meets: the answer to the poll, the
    formatted time of [datetime.now()], and the world of each attempt. *)
Record iter_env : Type := {
  poll : option (list update);
  now : str;
  attempt_envs : nat -> attempt_env
}.

(** The [if queue:] block. *)
Definition process_queue (s : state) (e : iter_env) : state * list event :=
  match queue s with
  | [] => (s, [])
  | (m3u8_url, custom_filename) :: rest =>
      let filename :=
        match custom_filename with
        | Some (c :: f) => c :: f
        | _ => lit "video_" ++ now e ++ lit ".mp4"
        end in
      let dest_path := path_join DRIVE_FOLDER filename in
      let remaining := length rest in
      let '(success, fs, tr) :=
        retry m3u8_url dest_path filename remaining (attempt_envs e)
              (workdir s) in
      ({| last_update_id := last_update_id s; queue := rest; workdir := fs |},
       [ENotify (StartingDownload m3u8_url remaining)] ++ tr
       ++ (if success then []
           else [ENotify (AllAttemptsFailed m3u8_url remaining)]))
  end.

Definition iteration (s : state) (e : iter_env) : state * list event :=
  let '(s1, tr1) := poll_phase s (poll e) in
  let '(s2, tr2) := process_queue s1 e in
  (s2, tr1 ++ tr2 ++ [ESleep POLL_INTERVAL]).

(** The first iterations of the loop, one per element of [es]. *)
Fixpoint run (s : state) (es : list iter_env) : state * list event :=
  match es with
  | [] => (s, [])
  | e :: rest =>
      let '(s1, tr1) := iteration s e in
      let '(s2, tr2) := run s1 rest in
      (s2, tr1 ++ tr2)
  end.

(** [main_loop] up to the end of the iterations in [es]: the cursor is set
    from the first poll, the start message is sent, the queue is empty. *)
Definition main_loop (first : option (list update)) (es : list iter_env)
  (fs : gset str) : state * list event :=
  let s0 := {| last_update_id := startup_cursor first; queue := [];
               workdir := fs |} in
  let '(s, tr) := run s0 es in
  (s, ENotify BotActive :: tr).

(** ** The specification's wording, for comparison *)

(** The candidate link as the specification words it: the part after the
    first separator when there is one, otherwise the whole trimmed text. *)
Definition spec_candidate_link (t : str) : str :=
  match split_once bar t with
  | Some (_, after) => after
  | None => strip t
  end.

(** The candidate link the parser tests: trimmed in both cases. *)
Definition candidate_link (t : str) : str :=
  match split_once bar t with
  | Some (_, after) => strip after
  | None => strip t
  end.

(** Whether a text makes [main_loop] append a job: [if link:]. *)
Definition yields_job (t : str) : bool :=
  match parse_message_text t with
  | (Some (_ :: _), _) => true
  | _ => false
  end.

(** The output name as the specification words it: the label with the
    illegal characters removed and nothing else done to it. *)
Definition spec_output_name (label : str) : str :=
  re_sub_illegal label ++ lit ".mp4".

(** The segment list as the specification words it, over the lines as
    they stand in the manifest. *)
Definition spec_chunk_urls (m3u8_url m3u8_content : str) : list str :=
  List.map
    (fun line => if startswith (lit "http") line then line
                 else base_url m3u8_url ++ line)
    (List.filter
       (fun line => negb (match strip line with [] => true | _ :: _ => false end)
                    && negb (startswith (lit "#") line))
       (splitlines m3u8_content)).

(** The two tests of the loop on a trimmed line: whether it is kept, and
    what it contributes to the list. *)
Definition keeps_line (line : str) : bool :=
  match line with
  | [] => false
  | _ :: _ => negb (startswith (lit "#") line)
  end.

Definition resolve (base line : str) : str :=
  if startswith (lit "http") line then line else base ++ line.

(** The paths the [finally] block removes. *)
Definition cleanup_targets : list str :=
  [lit "chunks"; lit "temp.ts"; lit "playlist.m3u8"; lit "chunks.txt";
   lit "output.mp4"].

(** ** Reading the event log *)

(** A manifest without segments: every line, once trimmed, is empty or
    starts with the comment mark. *)
Definition no_segment_lines (m3u8_content : str) : Prop :=
  Forall (fun raw => keeps_line (strip raw) = false) (splitlines m3u8_content).

(** The events a download attempt logs itself; the others are logged by
    the loops around it. *)
Definition is_inner (ev : event) : bool :=
  match ev with
  | EGet _ | EWrite _ _ | ERun _ | ECopy _ _ => true
  | _ => false
  end.

Definition is_tool_run (ev : event) : bool :=
  match ev with ERun _ => true | _ => false end.

Definition is_download (ev : event) : bool :=
  match ev with EDownload _ _ => true | _ => false end.

Definition is_success_note (ev : event) : bool :=
  match ev with ENotify (DownloadComplete _ _) => true | _ => false end.

Definition is_attempt_note (ev : event) : bool :=
  match ev with ENotify (AttemptStarted _ _) => true | _ => false end.

Definition is_failure_note (ev : event) : bool :=
  match ev with ENotify (AttemptFailed _ _) => true | _ => false end.

Definition is_sleep (ev : event) : bool :=
  match ev with ESleep _ => true | _ => false end.

Definition dl_or_success (ev : event) : bool :=
  is_download ev || is_success_note ev.

Definition count (f : event -> bool) (tr : list event) : nat :=
  length (List.filter f tr).

(** The value [download_and_merge] returns in a given world.  It does not
    depend on the working directory ([download_result_indep]). *)
Definition attempt_succeeds (m3u8_url out_path : str) (e : attempt_env) : bool :=
  fst (fst (download_and_merge m3u8_url out_path e ∅)).

(** In a log, every failure notice is directly followed by the delay. *)
Definition failures_then_delay (tr : list event) : Prop :=
  forall pre post attempt u,
    tr = pre ++ ENotify (AttemptFailed attempt u) :: post ->
    exists post', post = ESleep 5 :: post'.

(** In a log, every delay directly follows a failure notice and lasts 5. *)
Definition delay_only_after_failure (tr : list event) : Prop :=
  forall pre post n,
    tr = pre ++ ESleep n :: post ->
    n = 5%nat /\ exists pre' attempt u,
      pre = pre' ++ [ENotify (AttemptFailed attempt u)].

(** The delay rule as the specification words it: the failure notice of
    an attempt is followed by the delay exactly when attempts remain. *)
Definition spec_delay_iff_attempts_remain (tr : list event) : Prop :=
  forall pre post attempt u,
    tr = pre ++ ENotify (AttemptFailed attempt u) :: post ->
    ((exists post', post = ESleep 5 :: post') <-> (attempt < MAX_RETRIES)%nat).

(** ** Reading the cursor *)

(** The larger of a cursor and an identifier; an unset cursor is below
    every identifier. *)
Definition max_id (cursor : option Z) (uid : Z) : option Z :=
  match cursor with
  | None => Some uid
  | Some c => Some (Z.max c uid)
  end.

(** The maximum identifier observed: the cursor before the batch and the
    identifiers of the batch. *)
Definition max_observed (cursor : option Z) (batch : list update) : option Z :=
  fold_left max_id (List.map update_id batch) cursor.

(** An iteration whose poll answer is cut down to the records [keep]
    accepts. *)
Definition restrict_poll (keep : update -> bool) (e : iter_env) : iter_env :=
  {| poll := option_map (List.filter keep) (poll e);
     now := now e;
     attempt_envs := attempt_envs e |}.

(** Whether a record carries the identifier of one of the [old] records. *)
Definition seen_in (old : list update) (u : update) : bool :=
  existsb (fun o => (update_id o =? update_id u)%Z) old.

(** The cursor is at or above the identifier of every record that [keep]
    rejects. *)
Definition covers (cursor : option Z) (keep : update -> bool) : Prop :=
  forall u, keep u = false ->
    exists c, cursor = Some c /\ (update_id u <= c)%Z.

(** The messages that exist at startup are ignored, as the specification
    words it: whatever the startup poll answered, the run is the one in
    which the later polls do not return these messages at all. *)
Definition spec_history_ignored (old : list update) (first : option (list update))
  (es : list iter_env) (fs : gset str) : Prop :=
  main_loop first es fs
  = main_loop first (List.map (restrict_poll (fun u => negb (seen_in old u))) es) fs.

(** A string of whitespace only. *)
Definition all_space (s : str) : Prop := Forall (fun c => isspace c = true) s.

(** ** Sample worlds *)

(** What the three commands leave in the working directory. *)
Definition sample_cmd_fs (c : command) (fs : gset str) : gset str :=
  match c with
  | Shell _ => {[lit "temp.ts"]} ∪ fs
  | Argv (prog :: _) =>
      if decide (prog = lit "aria2c")
      then {[lit "chunks"]} ∪ {[lit "chunks/seg0.ts"]} ∪ fs
      else {[lit "output.mp4"]} ∪ fs
  | Argv [] => fs
  end.

(** A world in which every step succeeds when [body] is a manifest, and
    removals succeed on the paths [removable] accepts. *)
Definition sample_env (body : option str) (removable : str -> bool)
  : attempt_env :=
  {| http_get := fun _ => body;
     write_file := fun _ => Written;
     cmd_ok := fun _ => true;
     cmd_fs := sample_cmd_fs;
     copy_file := Copied;
     remove_ok := removable |}.

Definition sample_manifest : str :=
  lit "#EXTM3U" ++ [10] ++ lit "seg0.ts" ++ [10].

Definition good_env : attempt_env :=
  sample_env (Some sample_manifest) (fun _ => true).
Definition failing_env : attempt_env :=
  sample_env None (fun _ => true).

(** A world in which everything succeeds except the removal of the
    segment directory. *)
Definition stuck_env : attempt_env :=
  sample_env (Some sample_manifest)
    (fun p => negb (bool_decide (p = lit "chunks"))).

(** A manifest of tags, blank lines and an indented comment only. *)
Definition empty_manifest : str :=
  lit "#EXTM3U" ++ [13; 10] ++ lit "   " ++ [10] ++ lit "  # no media" ++ [10].

Definition empty_manifest_env : attempt_env :=
  sample_env (Some empty_manifest) (fun _ => true).

(** A message sent before the bot starts, and an iteration whose poll
    returns it. *)
Definition old_message : update :=
  {| update_id := 7; text := Some (lit "http://h/a/index.m3u8") |}.

Definition replay_iteration : iter_env :=
  {| poll := Some [old_message];
     now := lit "20240101_000000";
     attempt_envs := fun _ => failing_env |}.

(** Attempts 1 and 2 fail at the manifest fetch, attempt 3 succeeds. *)
Definition third_time_lucky (attempt : nat) : attempt_env :=
  match attempt with
  | 3%nat => good_env
  | _ => failing_env
  end.

(** ** Reading the queue *)

(** The job a record contributes when it is handled as a new one: the
    parsed pair, when the parser returns a non-empty link. *)
Definition job_of (u : update) : option job :=
  match text u with
  | Some t =>
      match parse_message_text t with
      | (Some (c :: l), fname) => Some (c :: l, fname)
      | _ => None
      end
  | None => None
  end.

(** The jobs a batch adds, in the order of the batch: those of the
    records that are new when their turn comes. *)
Fixpoint fresh_jobs (cursor : option Z) (batch : list update) : list job :=
  match batch with
  | [] => []
  | u :: rest =>
      if is_new cursor (update_id u)
      then option_list (job_of u) ++ fresh_jobs (Some (update_id u)) rest
      else fresh_jobs cursor rest
  end.

(** The queue notices of jobs appended to a queue that holds [n] jobs. *)
Fixpoint queued_notes (n : nat) (added : list job) : list event :=
  match added with
  | [] => []
  | j :: rest =>
      ENotify (LinkQueued (fst j) (S n) (S n)) :: queued_notes (S n) rest
  end.

(** The links whose download is announced in a log, in order. *)
Definition started_urls (tr : list event) : list str :=
  omap (fun ev => match ev with
                  | ENotify (StartingDownload u _) => Some u
                  | _ => None
                  end) tr.

(** The events of the retry loop and of the attempts inside it. *)
Definition is_attempt_level (ev : event) : bool :=
  match ev with
  | ENotify (AttemptStarted _ _) | ENotify (DownloadComplete _ _)
  | ENotify (AttemptFailed _ _) | ESleep _ | EDownload _ _ => true
  | ev => is_inner ev
  end.

Definition is_all_failed_note (ev : event) : bool :=
  match ev with ENotify (AllAttemptsFailed _ _) => true | _ => false end.

(** [filename] and [dest_path] as the [if queue:] block computes them. *)
Definition job_filename (now : str) (custom_filename : option str) : str :=
  match custom_filename with
  | Some (c :: f) => c :: f
  | _ => lit "video_" ++ now ++ lit ".mp4"
  end.

Definition job_dest_path (now : str) (custom_filename : option str) : str :=
  path_join DRIVE_FOLDER (job_filename now custom_filename).

(** Identifiers that increase strictly and all lie above the cursor. *)
Fixpoint increasing_above (cursor : option Z) (batch : list update) : Prop :=
  match batch with
  | [] => True
  | u :: rest =>
      is_new cursor (update_id u) = true
      /\ increasing_above (Some (update_id u)) rest
  end.

(** The notice that ends the handling of a job. *)
Definition is_terminal_note (ev : event) : bool :=
  is_success_note ev || is_all_failed_note ev.

(** The links of the jobs the polls of a run can contribute, in order. *)
Definition offered_urls (es : list iter_env) : list str :=
  concat ((fun e => fst <$> omap job_of (default [] (poll e))) <$> es).

Definition is_get (ev : event) : bool :=
  match ev with EGet _ => true | _ => false end.

(** The attempt numbers announced, and those reported as failed, in the
    order of the log. *)
Definition attempt_numbers (tr : list event) : list nat :=
  omap (fun ev => match ev with
                  | ENotify (AttemptStarted k _) => Some k
                  | _ => None
                  end) tr.

Definition failed_numbers (tr : list event) : list nat :=
  omap (fun ev => match ev with
                  | ENotify (AttemptFailed k _) => Some k
                  | _ => None
                  end) tr.

(** ** More sample worlds *)

Definition new_message : update :=
  {| update_id := 9;
     text := Some (lit "Algebra Lecture | https://cdn.example/a/index.m3u8") |}.

Definition idle_iteration : iter_env :=
  {| poll := None;
     now := lit "20240101_000000";
     attempt_envs := third_time_lucky |}.

Definition busy_iteration : iter_env :=
  {| poll := Some [old_message; new_message];
     now := lit "20240101_000000";
     attempt_envs := third_time_lucky |}.

Definition fresh_state : state :=
  {| last_update_id := None; queue := []; workdir := ∅ |}.

Definition two_jobs_state : state :=
  {| last_update_id := Some 7%Z;
     queue := [(lit "http://h/a.m3u8", None);
               (lit "http://h/b.m3u8", Some (lit "b.mp4"))];
     workdir := ∅ |}.

(** * Properties *)

(** ** The examples of the specification *)

Example parse_labelled :
  parse_message_text (lit "Algebra Lecture | https://cdn.example/a/index.m3u8")
  = (Some (lit "https://cdn.example/a/index.m3u8"),
     Some (lit "Algebra Lecture.mp4")).
Proof. reflexivity. Qed.

Example parse_bare :
  parse_message_text (lit "https://cdn.example/a/index.m3u8")
  = (Some (lit "https://cdn.example/a/index.m3u8"), None).
Proof. reflexivity. Qed.

Example parse_not_a_link :
  parse_message_text (lit "not a link") = (None, None).
Proof. reflexivity. Qed.

Example splitlines_boundaries :
  splitlines (lit "a" ++ [10; 10] ++ lit "b" ++ [13; 10]) = [lit "a"; []; lit "b"]
  /\ splitlines (lit "a" ++ [13; 10; 13] ++ lit "b") = [lit "a"; []; lit "b"]
  /\ splitlines (lit "a" ++ [10; 13]) = [lit "a"; []]
  /\ splitlines [] = [] /\ splitlines [10] = [[]].
Proof. repeat split; reflexivity. Qed.

Example clean_filename_all_classes :
  clean_filename (lit " a" ++ [92] ++ lit "b/c*d?e:f" ++ [34] ++ lit "g<h>i|j ")
  = lit "abcdefghij".
Proof. reflexivity. Qed.

Example base_url_examples :
  base_url (lit "http://h/a/index.m3u8") = lit "http://h/a/"
  /\ base_url (lit "http.m3u8") = lit "http.m3u8/".
Proof. split; reflexivity. Qed.

Example path_join_drive :
  path_join DRIVE_FOLDER (lit "a.mp4") = lit "/content/drive/MyDrive/M3U8/a.mp4".
Proof. reflexivity. Qed.

(** ** Strings *)

Lemma split_once_Some sep s h t :
  split_once sep s = Some (h, t) -> s = h ++ sep :: t /\ sep ∉ h.
Proof.
  revert h t. induction s as [|c r IH]; intros h t H; simpl in H; [discriminate|].
  destruct (N.eqb_spec c sep) as [->|Hne].
  - injection H as <- <-. split; [reflexivity | apply not_elem_of_nil].
  - destruct (split_once sep r) as [[h' t']|] eqn:E; [|discriminate].
    injection H as <- <-. destruct (IH h' t' eq_refl) as [-> Hn].
    split; [reflexivity|]. intros Hin. apply elem_of_cons in Hin as [->|Hin]; auto.
Qed.

Lemma split_once_None sep s : split_once sep s = None <-> sep ∉ s.
Proof.
  induction s as [|c r IH]; simpl.
  - split; [intros _; apply not_elem_of_nil | reflexivity].
  - destruct (N.eqb_spec c sep) as [->|Hne].
    + split; [discriminate | intros H; exfalso; apply H; left].
    + destruct (split_once sep r) as [[h t]|] eqn:E.
      * split; [discriminate|]. intros H. exfalso.
        assert (sep ∉ r) as Hr by (intros Hin; apply H; right; exact Hin).
        apply IH in Hr. discriminate.
      * split; [|reflexivity]. intros _ Hin.
        apply elem_of_cons in Hin as [->|Hin]; [congruence|].
        destruct IH as [IH _]. exact (IH eq_refl Hin).
Qed.

Lemma split_once_app sep h t :
  sep ∉ h -> split_once sep (h ++ sep :: t) = Some (h, t).
Proof.
  induction h as [|c h IH]; intros Hn; simpl.
  - rewrite N.eqb_refl. reflexivity.
  - destruct (N.eqb_spec c sep) as [->|Hne].
    + exfalso. apply Hn. left.
    + rewrite IH; [reflexivity|]. intros Hin. apply Hn. right. exact Hin.
Qed.

Lemma lstrip_decomp s : exists pre, s = pre ++ lstrip s /\ all_space pre.
Proof.
  induction s as [|c r (pre & E & Hp)]; simpl.
  - exists []. split; [reflexivity | constructor].
  - destruct (isspace c) eqn:Hc.
    + exists (c :: pre). split; [simpl; congruence | constructor; assumption].
    + exists []. split; [reflexivity | constructor].
Qed.

Lemma lstrip_head s c r : lstrip s = c :: r -> isspace c = false.
Proof.
  induction s as [|d s IH]; simpl; [discriminate|].
  destruct (isspace d) eqn:Hd; [exact IH|]. intros [= <- _]. exact Hd.
Qed.

Lemma lstrip_all_space s : all_space s -> lstrip s = [].
Proof.
  induction 1 as [|c r Hc _ IH]; simpl; [reflexivity|]. rewrite Hc. exact IH.
Qed.

Lemma lstrip_app_nonspace a c b :
  isspace c = false -> lstrip (a ++ c :: b) = lstrip a ++ c :: b.
Proof.
  intros Hc. induction a as [|d a IH]; simpl.
  - rewrite Hc. reflexivity.
  - destruct (isspace d); [exact IH | reflexivity].
Qed.

Lemma rstrip_decomp s : exists post, s = rstrip s ++ post /\ all_space post.
Proof.
  unfold rstrip. destruct (lstrip_decomp (rev s)) as (pre & E & Hp).
  exists (rev pre). split.
  - rewrite <- rev_app_distr, <- E, rev_involutive. reflexivity.
  - apply Forall_rev. exact Hp.
Qed.

Lemma rstrip_cons_nonspace c r :
  isspace c = false -> rstrip (c :: r) = c :: rstrip r.
Proof.
  intros Hc. unfold rstrip. simpl rev.
  rewrite lstrip_app_nonspace by exact Hc.
  rewrite rev_app_distr. reflexivity.
Qed.

Lemma rstrip_last s c : last (rstrip s) = Some c -> isspace c = false.
Proof.
  unfold rstrip. destruct (lstrip (rev s)) as [|d l] eqn:E; [discriminate|].
  simpl rev. rewrite last_snoc. intros [= <-]. exact (lstrip_head _ _ _ E).
Qed.

(** [strip] removes a run of whitespace at each end and nothing else, and
    what is left neither starts nor ends with whitespace. *)
Lemma strip_decomp s :
  exists pre post, s = pre ++ strip s ++ post /\ all_space pre /\ all_space post.
Proof.
  destruct (lstrip_decomp s) as (pre & E & Hp).
  destruct (rstrip_decomp (lstrip s)) as (post & E' & Hq).
  exists pre, post. unfold strip. rewrite <- E'. auto.
Qed.

Lemma strip_head s c r : strip s = c :: r -> isspace c = false.
Proof.
  unfold strip. destruct (lstrip s) as [|d l] eqn:E.
  - discriminate.
  - pose proof (lstrip_head _ _ _ E) as Hd.
    rewrite rstrip_cons_nonspace by exact Hd. intros [= <- _]. exact Hd.
Qed.

Lemma strip_last s c : last (strip s) = Some c -> isspace c = false.
Proof. apply rstrip_last. Qed.

Lemma strip_all_space s : all_space s -> strip s = [].
Proof. intros H. unfold strip. rewrite lstrip_all_space by exact H. reflexivity. Qed.

Lemma re_sub_illegal_legal label :
  Forall (fun c => illegal c = false) (re_sub_illegal label).
Proof.
  apply List.Forall_forall. intros c Hin. apply List.filter_In in Hin as [_ H].
  destruct (illegal c); [discriminate | reflexivity].
Qed.

Lemma re_sub_illegal_all_illegal label :
  Forall (fun c => illegal c = true) label -> re_sub_illegal label = [].
Proof.
  induction 1 as [|c r Hc _ IH]; simpl; [reflexivity|]. rewrite Hc. exact IH.
Qed.

Lemma re_sub_illegal_id label :
  Forall (fun c => illegal c = false) label -> re_sub_illegal label = label.
Proof.
  induction 1 as [|c r Hc _ IH]; simpl; [reflexivity|]. rewrite Hc. simpl.
  f_equal. exact IH.
Qed.

Lemma clean_filename_legal label c :
  c ∈ clean_filename label -> illegal c = false.
Proof.
  intros Hin. unfold clean_filename in Hin.
  destruct (strip_decomp (re_sub_illegal label)) as (pre & post & E & _ & _).
  pose proof (re_sub_illegal_legal label) as Hall. rewrite E in Hall.
  rewrite Forall_forall in Hall. apply Hall.
  apply elem_of_app. right. apply elem_of_app. left. exact Hin.
Qed.

Lemma is_m3u8_link_nonempty link : is_m3u8_link link = true -> link <> [].
Proof. intros H ->. discriminate. Qed.

(** ** The job parser *)

Lemma yields_job_iff t :
  yields_job t = true <-> is_m3u8_link (candidate_link t) = true.
Proof.
  unfold yields_job, candidate_link, parse_message_text.
  destruct (split_once bar t) as [[label after]|].
  - destruct (is_m3u8_link (strip after)) eqn:E.
    + destruct (strip after); [discriminate | tauto].
    + split; discriminate.
  - destruct (is_m3u8_link (strip t)) eqn:E.
    + destruct (strip t); [discriminate | tauto].
    + split; discriminate.
Qed.

Lemma parse_rejected t :
  yields_job t = false -> parse_message_text t = (None, None).
Proof.
  intros H. destruct (is_m3u8_link (candidate_link t)) eqn:E.
  - apply yields_job_iff in E. congruence.
  - revert E. unfold candidate_link, parse_message_text.
    destruct (split_once bar t) as [[label after]|]; intros ->; reflexivity.
Qed.

Lemma parse_accepted t :
  yields_job t = true ->
  parse_message_text t
  = (Some (candidate_link t),
     match split_once bar t with
     | Some (label, _) => Some (clean_filename label ++ lit ".mp4")
     | None => None
     end).
Proof.
  intros H. apply yields_job_iff in H. revert H.
  unfold candidate_link, parse_message_text.
  destruct (split_once bar t) as [[label after]|]; intros ->; reflexivity.
Qed.

(** C2, as amended: a text yields a job exactly when its candidate link,
    trimmed of surrounding whitespace in both cases (the part after the
    first separator when a separator is present, otherwise the whole
    text), starts with http and ends with .m3u8.  The job then carries that
    trimmed link.  Every other text yields no job, and handling it sends
    nothing to the sender and leaves the queue as it was. *)
Theorem parse_accepts_iff_trimmed_link (t : str) :
  (yields_job t = true <-> is_m3u8_link (candidate_link t) = true)
  /\ (yields_job t = true ->
      exists fname, parse_message_text t = (Some (candidate_link t), fname))
  /\ (yields_job t = false ->
      parse_message_text t = (None, None)
      /\ forall s uid,
          let r := handle_update s {| update_id := uid; text := Some t |} in
          snd r = [] /\ queue (fst r) = queue s).
Proof.
  split; [apply yields_job_iff|]. split.
  - intros H. eexists. apply parse_accepted. exact H.
  - intros H. pose proof (parse_rejected t H) as E. split; [exact E|].
    intros s uid. unfold handle_update. simpl. rewrite E.
    destruct (is_new (last_update_id s) uid); split; reflexivity.
Qed.

Lemma parse_accepts_iff_trimmed_link_witness :
  yields_job (lit "a| http://h/p.m3u8") = true
  /\ (exists fname,
        parse_message_text (lit "a| http://h/p.m3u8")
        = (Some (candidate_link (lit "a| http://h/p.m3u8")), fname))
  /\ parse_message_text (lit "a|ftp://h/p.m3u8") = (None, None).
Proof.
  destruct (parse_accepts_iff_trimmed_link (lit "a| http://h/p.m3u8"))
    as (Hiff & Hacc & _).
  destruct (parse_accepts_iff_trimmed_link (lit "a|ftp://h/p.m3u8"))
    as (_ & _ & Hrej).
  split; [apply Hiff; reflexivity|].
  split; [apply Hacc; reflexivity|].
  apply Hrej. reflexivity.
Defined.

(** C2 as stated fails: with a separator the part after it is tested only
    after trimming, so a link preceded by a blank is accepted although the
    untrimmed part does not start with http. *)
Lemma parse_untrimmed_link_counterexample :
  ~ (yields_job (lit "a| http://h/p.m3u8") = true
     <-> is_m3u8_link (spec_candidate_link (lit "a| http://h/p.m3u8")) = true).
Proof. intros [H _]. specialize (H eq_refl). discriminate H. Qed.

(** C7, as amended: for an accepted text with a separator the output name
    is the label with every illegal character removed and then trimmed of
    the whitespace at its two ends, followed by .mp4; no illegal character
    is left in it, and the trimming removes whitespace only. *)
Theorem labelled_output_name (t label after : str) :
  split_once bar t = Some (label, after) ->
  yields_job t = true ->
  parse_message_text t
  = (Some (strip after), Some (strip (re_sub_illegal label) ++ lit ".mp4"))
  /\ (forall c, c ∈ strip (re_sub_illegal label) -> illegal c = false)
  /\ (exists pre post,
        re_sub_illegal label = pre ++ strip (re_sub_illegal label) ++ post
        /\ all_space pre /\ all_space post)
  /\ (forall c, head (strip (re_sub_illegal label)) = Some c -> isspace c = false)
  /\ (forall c, last (strip (re_sub_illegal label)) = Some c -> isspace c = false)
  /\ (Forall (fun c => illegal c = false) label -> re_sub_illegal label = label).
Proof.
  intros Hs Hy. split.
  - rewrite (parse_accepted t Hy). unfold candidate_link. rewrite Hs. reflexivity.
  - split; [intros c; apply clean_filename_legal|].
    split; [apply strip_decomp|].
    split; [|split; [intros c; apply strip_last | apply re_sub_illegal_id]].
    intros c Hc. destruct (strip (re_sub_illegal label)) as [|d r] eqn:E;
      [discriminate|]. injection Hc as ->. exact (strip_head _ _ _ E).
Qed.

Lemma labelled_output_name_witness :
  parse_message_text (lit "Algebra: Lecture? | https://cdn.example/a/index.m3u8")
  = (Some (lit "https://cdn.example/a/index.m3u8"),
     Some (lit "Algebra Lecture.mp4")).
Proof.
  exact (proj1 (labelled_output_name
                  (lit "Algebra: Lecture? | https://cdn.example/a/index.m3u8")
                  (lit "Algebra: Lecture? ")
                  (lit " https://cdn.example/a/index.m3u8")
                  eq_refl eq_refl)).
Defined.

(** C7 as stated fails: the sanitizer also trims, so a label that ends
    with a blank loses it. *)
Lemma output_name_trimmed_counterexample :
  split_once bar (lit "a |http://h/p.m3u8") = Some (lit "a ", lit "http://h/p.m3u8")
  /\ yields_job (lit "a |http://h/p.m3u8") = true
  /\ snd (parse_message_text (lit "a |http://h/p.m3u8")) = Some (lit "a.mp4")
  /\ spec_output_name (lit "a ") = lit "a .mp4"
  /\ snd (parse_message_text (lit "a |http://h/p.m3u8"))
     <> Some (spec_output_name (lit "a ")).
Proof. repeat split; try reflexivity. discriminate. Qed.

Lemma all_space_legal s : all_space s -> re_sub_illegal s = s.
Proof.
  intros H. apply re_sub_illegal_id. eapply Forall_impl; [exact H|].
  intros c Hc. simpl in Hc. destruct (illegal c) eqn:E; [|reflexivity].
  unfold illegal in E. unfold isspace in Hc.
  repeat (apply orb_true_iff in E as [E|E]); apply N.eqb_eq in E; subst c;
    discriminate Hc.
Qed.

(** An empty label, a label of whitespace only and a label of illegal
    characters only all sanitize to the empty string. *)
Lemma sanitizes_to_empty label :
  label = [] \/ all_space label \/ Forall (fun c => illegal c = true) label ->
  clean_filename label = [].
Proof.
  unfold clean_filename. intros [-> | [H | H]].
  - reflexivity.
  - rewrite all_space_legal by exact H. apply strip_all_space. exact H.
  - rewrite re_sub_illegal_all_illegal by exact H. reflexivity.
Qed.

(** C10: a text [label|link] (the label holding no separator itself) whose
    link is valid and whose label sanitizes to the empty string still
    yields a job, and the job's output name is exactly .mp4. *)
Theorem empty_label_job_named_mp4 (label link : str) :
  bar ∉ label ->
  clean_filename label = [] ->
  is_m3u8_link (strip link) = true ->
  parse_message_text (label ++ bar :: link)
  = (Some (strip link), Some (lit ".mp4"))
  /\ yields_job (label ++ bar :: link) = true
  /\ forall s uid,
      is_new (last_update_id s) uid = true ->
      queue (fst (handle_update s {| update_id := uid;
                                      text := Some (label ++ bar :: link) |}))
      = queue s ++ [(strip link, Some (lit ".mp4"))].
Proof.
  intros Hbar Hclean Hlink.
  assert (parse_message_text (label ++ bar :: link)
          = (Some (strip link), Some (lit ".mp4"))) as E.
  { unfold parse_message_text. rewrite split_once_app by exact Hbar.
    rewrite Hlink, Hclean. reflexivity. }
  split; [exact E|]. split.
  - unfold yields_job. rewrite E.
    destruct (strip link); [discriminate | reflexivity].
  - intros s uid Hnew. unfold handle_update. simpl. rewrite Hnew, E.
    destruct (strip link); [discriminate | reflexivity].
Qed.

Lemma empty_label_job_named_mp4_witness :
  parse_message_text (lit " :?/ " ++ bar :: lit " http://h/p.m3u8")
  = (Some (strip (lit " http://h/p.m3u8")), Some (lit ".mp4")).
Proof.
  refine (proj1 (empty_label_job_named_mp4 (lit " :?/ ") (lit " http://h/p.m3u8")
                   _ eq_refl eq_refl)).
  intros H. repeat (apply elem_of_cons in H as [H|H]; [discriminate H|]).
  apply elem_of_nil in H. exact H.
Defined.

(** ** The segment list *)

Lemma collect_chunks_spec base lines acc :
  collect_chunks base lines acc
  = acc ++ List.map (resolve base) (List.filter keeps_line (List.map strip lines)).
Proof.
  revert acc. induction lines as [|raw rest IH]; intros acc.
  - cbn [collect_chunks List.map List.filter]. rewrite app_nil_r. reflexivity.
  - cbn [collect_chunks List.map List.filter]. cbv zeta.
    destruct (strip raw) as [|c l] eqn:E; cbn [keeps_line]; [apply IH|].
    destruct (startswith (lit "#") (c :: l)) eqn:Hc; cbn [negb List.map];
      [apply IH|].
    unfold resolve at 1.
    destruct (startswith (lit "http") (c :: l)); rewrite IH, <- app_assoc;
      reflexivity.
Qed.

Lemma rsplit_head_app dir name :
  slash ∉ name -> rsplit_head slash (dir ++ slash :: name) = dir.
Proof.
  intros Hn. unfold rsplit_head.
  rewrite rev_app_distr. simpl rev. rewrite <- app_assoc. simpl.
  rewrite split_once_app.
  - apply rev_involutive.
  - intros Hin. apply Hn. apply list_elem_of_In. apply List.in_rev.
    apply list_elem_of_In. exact Hin.
Qed.

(** C4, as amended: the segment list is the manifest's lines in order,
    each first trimmed of surrounding whitespace, with the lines that are
    then empty or start with the comment mark skipped; a remaining
    trimmed line that starts with http is used as it is, and every other
    one is appended to the base, which is the manifest URL up to and
    including its last slash. *)
Theorem chunk_urls_trimmed_lines (m3u8_url m3u8_content : str) :
  chunk_urls_of m3u8_url m3u8_content
  = List.map (resolve (base_url m3u8_url))
      (List.filter keeps_line (List.map strip (splitlines m3u8_content)))
  /\ (forall line, keeps_line line = true ->
        startswith (lit "http") line = true ->
        resolve (base_url m3u8_url) line = line)
  /\ (forall line, keeps_line line = true ->
        startswith (lit "http") line = false ->
        resolve (base_url m3u8_url) line = base_url m3u8_url ++ line)
  /\ (forall dir name, m3u8_url = dir ++ slash :: name -> slash ∉ name ->
        base_url m3u8_url = dir ++ [slash]).
Proof.
  split; [apply collect_chunks_spec|].
  split; [intros line _ H; unfold resolve; rewrite H; reflexivity|].
  split; [intros line _ H; unfold resolve; rewrite H; reflexivity|].
  intros dir name -> Hn. unfold base_url. rewrite rsplit_head_app by exact Hn.
  reflexivity.
Qed.

Lemma chunk_urls_trimmed_lines_witness :
  base_url (lit "http://h/a/index.m3u8") = lit "http://h/a/"
  /\ chunk_urls_of (lit "http://h/a/index.m3u8")
       (lit "#EXTM3U" ++ [10] ++ lit " seg0.ts " ++ [13; 10] ++ [10]
        ++ lit "http://c/seg1.ts")
     = [lit "http://h/a/seg0.ts"; lit "http://c/seg1.ts"].
Proof.
  destruct (chunk_urls_trimmed_lines (lit "http://h/a/index.m3u8")
              (lit "#EXTM3U" ++ [10] ++ lit " seg0.ts " ++ [13; 10] ++ [10]
               ++ lit "http://c/seg1.ts")) as (E & _ & _ & Hbase).
  split.
  - apply (Hbase (lit "http://h/a") (lit "index.m3u8")); [reflexivity|].
    intros H. repeat (apply elem_of_cons in H as [H|H]; [discriminate H|]).
    apply elem_of_nil in H. exact H.
  - rewrite E. reflexivity.
Defined.

(** C4 as stated fails: a line is trimmed before it is tested and used,
    so a segment line that starts with a blank is not used as it stands. *)
Lemma chunk_urls_untrimmed_counterexample :
  chunk_urls_of (lit "http://h/a/index.m3u8") (lit " seg0.ts")
  = [lit "http://h/a/seg0.ts"]
  /\ spec_chunk_urls (lit "http://h/a/index.m3u8") (lit " seg0.ts")
     = [lit "http://h/a/ seg0.ts"]
  /\ chunk_urls_of (lit "http://h/a/index.m3u8") (lit " seg0.ts")
     <> spec_chunk_urls (lit "http://h/a/index.m3u8") (lit " seg0.ts").
Proof. repeat split; try reflexivity. discriminate. Qed.

(** ** One download attempt *)

Lemma download_result_indep url out e fs :
  fst (fst (download_and_merge url out e fs)) = attempt_succeeds url out e.
Proof.
  unfold attempt_succeeds, download_and_merge, try_block.
  unfold fetch, write_text, safe_run, copy_to, log, raise, mbind, M_bind, bind, ret.
  destruct (http_get e url) as [body|]; [|reflexivity].
  destruct (write_file e (lit "playlist.m3u8")); try reflexivity.
  destruct (chunk_urls_of url body); [reflexivity|].
  destruct (write_file e (lit "chunks.txt")); try reflexivity.
  destruct (cmd_ok e aria_cmd); [|reflexivity].
  destruct (cmd_ok e cat_cmd); [|reflexivity].
  destruct (cmd_ok e ffmpeg_cmd); [|reflexivity].
  destruct (copy_file e); reflexivity.
Qed.

(** The [finally] block runs whatever the [try] block did. *)
Lemma download_ends_with_cleanup url out e fs :
  exists fs1, snd (fst (download_and_merge url out e fs)) = cleanup e fs1.
Proof.
  unfold download_and_merge.
  destruct (try_block url out e fs) as [[[b|] fs1] tr]; exists fs1; reflexivity.
Qed.

Lemma download_trace_inner url out e fs :
  Forall (fun ev => is_inner ev = true) (snd (download_and_merge url out e fs)).
Proof.
  unfold download_and_merge, try_block.
  unfold fetch, write_text, safe_run, copy_to, log, raise, mbind, M_bind, bind, ret.
  destruct (http_get e url) as [body|]; [|repeat constructor].
  destruct (write_file e (lit "playlist.m3u8")); try (repeat constructor).
  destruct (chunk_urls_of url body); [repeat constructor|].
  destruct (write_file e (lit "chunks.txt")); try (repeat constructor).
  destruct (cmd_ok e aria_cmd); [|repeat constructor].
  destruct (cmd_ok e cat_cmd); [|repeat constructor].
  destruct (cmd_ok e ffmpeg_cmd); [|repeat constructor].
  destruct (copy_file e); repeat constructor.
Qed.

Lemma no_segment_lines_no_chunks url body :
  no_segment_lines body -> chunk_urls_of url body = [].
Proof.
  unfold no_segment_lines, chunk_urls_of. intros H.
  rewrite collect_chunks_spec. simpl app.
  induction H as [|raw rest Hraw _ IH]; [reflexivity|].
  cbn [List.map List.filter]. rewrite Hraw. exact IH.
Qed.

Lemma download_without_segments url out e fs :
  (forall body, http_get e url = Some body -> no_segment_lines body) ->
  fst (fst (download_and_merge url out e fs)) = false
  /\ Forall (fun ev => is_tool_run ev = false)
       (snd (download_and_merge url out e fs)).
Proof.
  intros H. unfold download_and_merge, try_block.
  unfold fetch, write_text, safe_run, copy_to, log, raise, mbind, M_bind, bind, ret.
  destruct (http_get e url) as [body|]; [|split; repeat constructor].
  rewrite (no_segment_lines_no_chunks url body (H body eq_refl)).
  destruct (write_file e (lit "playlist.m3u8")); split; repeat constructor.
Qed.

(** ** Cleanup *)

Lemma remove_files_ok (e : attempt_env) (files : list str) (fs : gset str) :
  Forall (fun p => remove_ok e p = true) files ->
  remove_files e files fs = fs ∖ list_to_set files.
Proof.
  intros H. revert fs. induction H as [|f rest Hf _ IH]; intros fs; simpl.
  - set_solver.
  - destruct (decide (f ∈ fs)) as [Hin|Hout].
    + rewrite Hf, IH. set_solver.
    + rewrite IH. set_solver.
Qed.

Lemma rmtree_gone (p : str) (fs : gset str) (q : str) :
  q ∈ rmtree p fs -> q ∈ fs /\ q <> p /\ startswith (p ++ lit "/") q = false.
Proof. unfold rmtree. rewrite elem_of_filter. tauto. Qed.

Lemma cleanup_removes (e : attempt_env) (fs : gset str) (p : str) :
  Forall (fun p => remove_ok e p = true) cleanup_targets ->
  p ∈ cleanup_targets -> p ∉ cleanup e fs.
Proof.
  intros Hok Hp. unfold cleanup_targets in Hok, Hp.
  apply Forall_cons in Hok as [Hchunks Hfiles].
  unfold cleanup.
  apply elem_of_cons in Hp as [->|Hp].
  - destruct (decide (lit "chunks" ∈ fs)) as [Hin|Hout].
    + rewrite Hchunks, remove_files_ok by exact Hfiles.
      intros H. apply elem_of_difference in H as [H _].
      apply rmtree_gone in H as (_ & H & _). congruence.
    + rewrite remove_files_ok by exact Hfiles. set_solver.
  - assert (p ∈ (list_to_set [lit "temp.ts"; lit "playlist.m3u8";
                               lit "chunks.txt"; lit "output.mp4"] : gset str))
      as Hset by (apply elem_of_list_to_set; exact Hp).
    destruct (decide (lit "chunks" ∈ fs)) as [Hin|Hout].
    + rewrite Hchunks, remove_files_ok by exact Hfiles. set_solver.
    + rewrite remove_files_ok by exact Hfiles. set_solver.
Qed.

(** C5, as amended: the cleanup block runs on every exit path of the
    attempt, whether it returns success or failure; provided none of its
    removals fails, none of the scratch artifacts (the segment directory,
    the intermediate concatenated file, the manifest copy, the
    segment-list file, nor the intermediate output) exists when download
    returns. *)
Theorem scratch_removed_unless_removal_fails (m3u8_url out_path : str)
  (e : attempt_env) (fs : gset str) :
  let fs' := snd (fst (download_and_merge m3u8_url out_path e fs)) in
  (exists fs1, fs' = cleanup e fs1)
  /\ (Forall (fun p => remove_ok e p = true) cleanup_targets ->
      (lit "chunks" ∉ fs') /\ (lit "temp.ts" ∉ fs') /\ (lit "playlist.m3u8" ∉ fs')
      /\ (lit "chunks.txt" ∉ fs') /\ (lit "output.mp4" ∉ fs')).
Proof.
  cbv zeta. destruct (download_ends_with_cleanup m3u8_url out_path e fs)
    as [fs1 E].
  split; [exists fs1; exact E|]. intros Hok. rewrite E.
  repeat split; apply cleanup_removes; try exact Hok;
    unfold cleanup_targets; set_solver.
Qed.

Lemma scratch_removed_unless_removal_fails_witness :
  let after e :=
    snd (fst (download_and_merge (lit "http://h/a/index.m3u8")
                (lit "/content/drive/MyDrive/M3U8/a.mp4") e
                {[lit "chunks"; lit "temp.ts"]})) in
  ((lit "chunks" ∉ after good_env) /\ (lit "temp.ts" ∉ after good_env)
   /\ (lit "playlist.m3u8" ∉ after good_env) /\ (lit "chunks.txt" ∉ after good_env)
   /\ (lit "output.mp4" ∉ after good_env))
  /\ ((lit "chunks" ∉ after failing_env) /\ (lit "temp.ts" ∉ after failing_env)
      /\ (lit "playlist.m3u8" ∉ after failing_env)
      /\ (lit "chunks.txt" ∉ after failing_env)
      /\ (lit "output.mp4" ∉ after failing_env)).
Proof.
  cbv zeta. split.
  - apply (scratch_removed_unless_removal_fails (lit "http://h/a/index.m3u8")
             (lit "/content/drive/MyDrive/M3U8/a.mp4") good_env
             {[lit "chunks"; lit "temp.ts"]}).
    repeat constructor.
  - apply (scratch_removed_unless_removal_fails (lit "http://h/a/index.m3u8")
             (lit "/content/drive/MyDrive/M3U8/a.mp4") failing_env
             {[lit "chunks"; lit "temp.ts"]}).
    repeat constructor.
Defined.

(** C5 as stated fails: an error inside the cleanup block is swallowed
    and ends it.  When the removal of the segment directory raises, the
    attempt still returns success, and the directory, the concatenated
    file, the manifest copy and the segment-list file are all left. *)
Lemma scratch_left_counterexample :
  let r := download_and_merge (lit "http://h/a/index.m3u8")
             (lit "/content/drive/MyDrive/M3U8/a.mp4") stuck_env ∅ in
  fst (fst r) = true
  /\ lit "chunks" ∈ snd (fst r) /\ lit "temp.ts" ∈ snd (fst r)
  /\ lit "playlist.m3u8" ∈ snd (fst r) /\ lit "chunks.txt" ∈ snd (fst r).
Proof.
  cbv zeta. split; [reflexivity|].
  repeat split; apply bool_decide_unpack; vm_compute; exact I.
Qed.

(** ** The retry loop *)

Section Retry.

Variables (m3u8_url dest_path filename : str) (remaining : nat).
Variable envs : nat -> attempt_env.

Let ok (attempt : nat) : bool :=
  attempt_succeeds m3u8_url dest_path (envs attempt).
Let loop (attempts : list nat) (fs : gset str) :=
  attempt_loop attempts m3u8_url dest_path filename remaining envs fs.
Let started (attempt : nat) (fs : gset str) : list event :=
  ENotify (AttemptStarted attempt MAX_RETRIES) :: EDownload m3u8_url dest_path
  :: snd (download_and_merge m3u8_url dest_path (envs attempt) fs).
Let success_note : event := ENotify (DownloadComplete filename remaining).

Lemma attempt_loop_success attempt rest fs :
  ok attempt = true ->
  loop (attempt :: rest) fs
  = (true, snd (fst (download_and_merge m3u8_url dest_path (envs attempt) fs)),
     started attempt fs ++ [success_note]).
Proof.
  unfold ok, loop, started. intros H.
  rewrite <- (download_result_indep _ _ _ fs) in H. simpl.
  destruct (download_and_merge m3u8_url dest_path (envs attempt) fs)
    as [[b fs1] tr]. simpl in H. subst b. reflexivity.
Qed.

Lemma attempt_loop_failure attempt rest fs :
  ok attempt = false ->
  exists fs1,
    loop (attempt :: rest) fs
    = (fst (fst (loop rest fs1)), snd (fst (loop rest fs1)),
       started attempt fs
       ++ ENotify (AttemptFailed attempt m3u8_url) :: ESleep 5
       :: snd (loop rest fs1)).
Proof.
  unfold ok, loop, started. intros H.
  rewrite <- (download_result_indep _ _ _ fs) in H. simpl.
  destruct (download_and_merge m3u8_url dest_path (envs attempt) fs)
    as [[b fs1] tr]. simpl in H. subst b. exists fs1.
  destruct (attempt_loop rest m3u8_url dest_path filename remaining envs fs1)
    as [[s fs2] tr2]. reflexivity.
Qed.

Lemma filter_started f attempt fs :
  (forall ev, is_inner ev = true -> f ev = false) ->
  List.filter f (started attempt fs)
  = List.filter f [ENotify (AttemptStarted attempt MAX_RETRIES);
                   EDownload m3u8_url dest_path].
Proof.
  intros Hf. unfold started.
  change (?a :: ?b :: ?l) with ([a; b] ++ l) at 1.
  rewrite List.filter_app.
  replace (List.filter f (snd (download_and_merge _ _ _ fs))) with (@nil event).
  - apply app_nil_r.
  - symmetry. pose proof (download_trace_inner m3u8_url dest_path (envs attempt) fs) as H.
    induction H as [|ev l Hev _ IH]; [reflexivity|].
    simpl. rewrite (Hf ev Hev). exact IH.
Qed.

Lemma attempt_loop_downloads attempts fs :
  (count is_download (snd (loop attempts fs)) <= length attempts)%nat.
Proof.
  revert fs. induction attempts as [|k rest IH]; intros fs;
    [unfold loop, count; simpl; lia|].
  unfold count in *. destruct (ok k) eqn:E.
  - rewrite (attempt_loop_success k rest fs E). cbn [fst snd].
    rewrite List.filter_app, filter_started by (intros [] ?; easy).
    unfold success_note. simpl. lia.
  - destruct (attempt_loop_failure k rest fs E) as [fs1 ->]. cbn [fst snd].
    rewrite List.filter_app, filter_started by (intros [] ?; easy).
    specialize (IH fs1). simpl. simpl in IH. lia.
Qed.

(** The loop stops at the first attempt that succeeds. *)
Lemma attempt_loop_first_success pre k post fs :
  Forall (fun j => ok j = false) pre -> ok k = true ->
  let r := loop (pre ++ k :: post) fs in
  fst (fst r) = true
  /\ count is_download (snd r) = S (length pre)
  /\ count is_attempt_note (snd r) = S (length pre)
  /\ count is_success_note (snd r) = 1%nat
  /\ last (snd r) = Some success_note
  /\ List.filter dl_or_success (snd r)
     = repeat (EDownload m3u8_url dest_path) (S (length pre)) ++ [success_note].
Proof.
  intros Hpre Hk. revert fs. cbv zeta. unfold count.
  induction Hpre as [|j pre Hj _ IH]; intros fs.
  - simpl app. rewrite (attempt_loop_success k post fs Hk). cbn [fst snd].
    rewrite last_snoc, !List.filter_app, !filter_started
      by (intros [] ?; easy).
    unfold success_note. repeat split.
  - cbn [app]. destruct (attempt_loop_failure j (pre ++ k :: post) fs Hj)
      as [fs1 ->]. cbn [fst snd].
    destruct (IH fs1) as (H1 & H2 & H3 & H4 & H5 & H6).
    rewrite !List.filter_app, !filter_started by (intros [] ?; easy).
    split; [exact H1|]. cbn [List.filter is_download is_attempt_note
      is_success_note dl_or_success is_sleep orb app length].
    rewrite H2, H3, H4, H6.
    repeat split.
    change (?a :: ?b :: ?l) with ([a; b] ++ l).
    rewrite app_assoc.
    destruct (snd (loop (pre ++ k :: post) fs1)) as [|x l] eqn:El;
      [discriminate|].
    rewrite last_app. rewrite H5. reflexivity.
Qed.

(** Without a success every attempt is made and the loop reports failure. *)
Lemma attempt_loop_all_fail attempts fs :
  Forall (fun j => ok j = false) attempts ->
  let r := loop attempts fs in
  fst (fst r) = false
  /\ count is_download (snd r) = length attempts
  /\ count is_success_note (snd r) = 0%nat
  /\ count is_sleep (snd r) = length attempts.
Proof.
  intros H. revert fs. cbv zeta. unfold count.
  induction H as [|j rest Hj _ IH]; intros fs; [repeat split|].
  destruct (attempt_loop_failure j rest fs Hj) as [fs1 ->]. cbn [fst snd].
  destruct (IH fs1) as (H1 & H2 & H3 & H4).
  rewrite !List.filter_app, !filter_started by (intros [] ?; easy).
  cbn [List.filter is_download is_success_note is_sleep app length].
  rewrite H2, H3, H4. repeat split. exact H1.
Qed.

End Retry.

(** ** Delays in the event log *)

Lemma failures_then_delay_nil : failures_then_delay [].
Proof. intros [|x pre] post k u H; discriminate H. Qed.

Lemma failures_then_delay_cons x l :
  is_failure_note x = false ->
  failures_then_delay l -> failures_then_delay (x :: l).
Proof.
  intros Hx Hl [|y pre] post k u H; simpl in H.
  - injection H as -> _. discriminate Hx.
  - injection H as _ E. exact (Hl pre post k u E).
Qed.

Lemma failures_then_delay_app a l :
  Forall (fun ev => is_inner ev = true) a ->
  failures_then_delay l -> failures_then_delay (a ++ l).
Proof.
  intros Ha Hl. induction Ha as [|x a Hx _ IH]; [exact Hl|].
  simpl. apply failures_then_delay_cons; [|exact IH].
  destruct x as [[]| | | | | |]; try reflexivity; discriminate Hx.
Qed.

Lemma failures_then_delay_failure k u l :
  failures_then_delay l ->
  failures_then_delay (ENotify (AttemptFailed k u) :: ESleep 5 :: l).
Proof.
  intros Hl [|y pre] post k' u' H; simpl in H.
  - injection H as _ _ <-. eexists. reflexivity.
  - injection H as _ E. destruct pre as [|z pre]; simpl in E.
    + discriminate E.
    + injection E as _ E. exact (Hl pre post k' u' E).
Qed.

Lemma delay_only_after_failure_nil : delay_only_after_failure [].
Proof. intros [|x pre] post n H; discriminate H. Qed.

Lemma delay_only_after_failure_cons x l :
  is_sleep x = false ->
  delay_only_after_failure l -> delay_only_after_failure (x :: l).
Proof.
  intros Hx Hl [|y pre] post n H; simpl in H.
  - injection H as -> _. discriminate Hx.
  - injection H as <- E. destruct (Hl pre post n E) as (Hn & pre' & k & u & ->).
    split; [exact Hn|]. exists (x :: pre'), k, u. reflexivity.
Qed.

Lemma delay_only_after_failure_app a l :
  Forall (fun ev => is_inner ev = true) a ->
  delay_only_after_failure l -> delay_only_after_failure (a ++ l).
Proof.
  intros Ha Hl. induction Ha as [|x a Hx _ IH]; [exact Hl|].
  simpl. apply delay_only_after_failure_cons; [|exact IH].
  destruct x; try reflexivity; discriminate Hx.
Qed.

Lemma delay_only_after_failure_failure k u l :
  delay_only_after_failure l ->
  delay_only_after_failure (ENotify (AttemptFailed k u) :: ESleep 5 :: l).
Proof.
  intros Hl [|y pre] post n H; simpl in H.
  - discriminate H.
  - injection H as <- E. destruct pre as [|z pre]; simpl in E.
    + injection E as <- _. split; [reflexivity|].
      exists [], k, u. reflexivity.
    + injection E as <- E.
      destruct (Hl pre post n E) as (Hn & pre' & k' & u' & ->).
      split; [exact Hn|].
      exists (ENotify (AttemptFailed k u) :: ESleep 5 :: pre'), k', u'.
      reflexivity.
Qed.

Lemma attempt_loop_delays attempts m3u8_url dest_path filename remaining envs fs :
  let tr := snd (attempt_loop attempts m3u8_url dest_path filename remaining
                   envs fs) in
  failures_then_delay tr /\ delay_only_after_failure tr.
Proof.
  cbv zeta. revert fs. induction attempts as [|k rest IH]; intros fs.
  - split; [apply failures_then_delay_nil | apply delay_only_after_failure_nil].
  - pose proof (download_trace_inner m3u8_url dest_path (envs k) fs) as Hin.
    destruct (attempt_succeeds m3u8_url dest_path (envs k)) eqn:E.
    + rewrite (attempt_loop_success _ _ filename remaining _ k rest fs E).
      cbn [fst snd]. split.
      * apply failures_then_delay_cons; [reflexivity|].
        apply failures_then_delay_cons; [reflexivity|].
        apply failures_then_delay_app; [exact Hin|].
        apply failures_then_delay_cons; [reflexivity|].
        apply failures_then_delay_nil.
      * apply delay_only_after_failure_cons; [reflexivity|].
        apply delay_only_after_failure_cons; [reflexivity|].
        apply delay_only_after_failure_app; [exact Hin|].
        apply delay_only_after_failure_cons; [reflexivity|].
        apply delay_only_after_failure_nil.
    + destruct (attempt_loop_failure _ _ filename remaining _ k rest fs E)
        as [fs1 ->]. cbn [fst snd]. destruct (IH fs1) as [IH1 IH2]. split.
      * apply failures_then_delay_cons; [reflexivity|].
        apply failures_then_delay_cons; [reflexivity|].
        apply failures_then_delay_app; [exact Hin|].
        apply failures_then_delay_failure. exact IH1.
      * apply delay_only_after_failure_cons; [reflexivity|].
        apply delay_only_after_failure_cons; [reflexivity|].
        apply delay_only_after_failure_app; [exact Hin|].
        apply delay_only_after_failure_failure. exact IH2.
Qed.

Lemma attempt_loop_no_tools attempts m3u8_url dest_path filename remaining envs fs :
  (forall k fs0, Forall (fun ev => is_tool_run ev = false)
                   (snd (download_and_merge m3u8_url dest_path (envs k) fs0))) ->
  Forall (fun ev => is_tool_run ev = false)
    (snd (attempt_loop attempts m3u8_url dest_path filename remaining envs fs)).
Proof.
  intros H. revert fs. induction attempts as [|k rest IH]; intros fs;
    [constructor|].
  destruct (attempt_succeeds m3u8_url dest_path (envs k)) eqn:E.
  - rewrite (attempt_loop_success _ _ filename remaining _ k rest fs E).
    cbn [fst snd]. repeat (apply Forall_cons; split; [reflexivity|]).
    apply Forall_app. split; [apply H | repeat constructor].
  - destruct (attempt_loop_failure _ _ filename remaining _ k rest fs E)
      as [fs1 ->]. cbn [fst snd].
    repeat (apply Forall_cons; split; [reflexivity|]).
    apply Forall_app. split; [apply H|].
    repeat (apply Forall_cons; split; [reflexivity|]). apply IH.
Qed.

(** C1: for a job taken from the queue the downloader is called at most
    MAX_RETRIES = 3 times; the calls stop at the first attempt that
    succeeds, which is followed by one success notice that ends the log of
    the job; and a job that fails on attempts 1 and 2 and succeeds on
    attempt 3 gives three attempt notices and exactly three downloader
    calls followed by exactly one success notice. *)
Theorem at_most_three_downloads_stop_at_success
  (m3u8_url dest_path filename : str) (remaining : nat)
  (envs : nat -> attempt_env) (fs : gset str) :
  let r := retry m3u8_url dest_path filename remaining envs fs in
  let ok attempt := attempt_succeeds m3u8_url dest_path (envs attempt) in
  (count is_download (snd r) <= 3)%nat
  /\ (forall k, (1 <= k <= 3)%nat ->
        (forall j, (1 <= j < k)%nat -> ok j = false) -> ok k = true ->
        fst (fst r) = true
        /\ count is_download (snd r) = k
        /\ count is_success_note (snd r) = 1%nat
        /\ last (snd r) = Some (ENotify (DownloadComplete filename remaining)))
  /\ (ok 1%nat = false -> ok 2%nat = false -> ok 3%nat = true ->
        count is_attempt_note (snd r) = 3%nat
        /\ List.filter dl_or_success (snd r)
           = [EDownload m3u8_url dest_path; EDownload m3u8_url dest_path;
              EDownload m3u8_url dest_path;
              ENotify (DownloadComplete filename remaining)]).
Proof.
  cbv zeta. unfold retry. split; [|split].
  - apply (attempt_loop_downloads m3u8_url dest_path filename remaining envs
             (seq 1 MAX_RETRIES) fs).
  - intros k Hk Hbefore Hok.
    assert (k = 1 \/ k = 2 \/ k = 3)%nat as [-> | [-> | ->]] by lia.
    + destruct (attempt_loop_first_success m3u8_url dest_path filename
                  remaining envs [] 1%nat [2; 3]%nat fs)
        as (H1 & H2 & _ & H4 & H5 & _); [constructor | exact Hok |].
      repeat split; assumption.
    + destruct (attempt_loop_first_success m3u8_url dest_path filename
                  remaining envs [1]%nat 2%nat [3]%nat fs)
        as (H1 & H2 & _ & H4 & H5 & _); [| exact Hok |].
      { repeat constructor. apply Hbefore. lia. }
      repeat split; assumption.
    + destruct (attempt_loop_first_success m3u8_url dest_path filename
                  remaining envs [1; 2]%nat 3%nat [] fs)
        as (H1 & H2 & _ & H4 & H5 & _); [| exact Hok |].
      { repeat constructor; apply Hbefore; lia. }
      repeat split; assumption.
  - intros F1 F2 S3.
    destruct (attempt_loop_first_success m3u8_url dest_path filename
                remaining envs [1; 2]%nat 3%nat [] fs)
      as (_ & _ & H3 & _ & _ & H6); [| exact S3 |].
    { repeat constructor; assumption. }
    split; assumption.
Qed.

Lemma at_most_three_downloads_stop_at_success_witness :
  let r := retry (lit "http://h/a/index.m3u8")
             (lit "/content/drive/MyDrive/M3U8/a.mp4") (lit "a.mp4") 0
             third_time_lucky ∅ in
  fst (fst r) = true
  /\ count is_download (snd r) = 3%nat
  /\ count is_success_note (snd r) = 1%nat
  /\ count is_attempt_note (snd r) = 3%nat
  /\ List.filter dl_or_success (snd r)
     = [EDownload (lit "http://h/a/index.m3u8")
          (lit "/content/drive/MyDrive/M3U8/a.mp4");
        EDownload (lit "http://h/a/index.m3u8")
          (lit "/content/drive/MyDrive/M3U8/a.mp4");
        EDownload (lit "http://h/a/index.m3u8")
          (lit "/content/drive/MyDrive/M3U8/a.mp4");
        ENotify (DownloadComplete (lit "a.mp4") 0)].
Proof.
  cbv zeta.
  destruct (at_most_three_downloads_stop_at_success
              (lit "http://h/a/index.m3u8")
              (lit "/content/drive/MyDrive/M3U8/a.mp4") (lit "a.mp4") 0
              third_time_lucky ∅) as (_ & Hfirst & Hthree).
  destruct (Hfirst 3%nat) as (H1 & H2 & H3 & _).
  - lia.
  - intros j Hj. assert (j = 1 \/ j = 2)%nat as [-> | ->] by lia;
      vm_compute; reflexivity.
  - vm_compute; reflexivity.
  - destruct Hthree as (H4 & H5); try (vm_compute; reflexivity).
    repeat split; assumption.
Defined.

(** C6: when every manifest the job's attempts fetch has no line that is
    neither blank nor a comment, every attempt fails, all three are made,
    the job ends in failure, and no external command (segment fetch,
    concatenation, transcode) is run. *)
Theorem empty_manifest_fails_without_tools
  (m3u8_url dest_path filename : str) (remaining : nat)
  (envs : nat -> attempt_env) (fs : gset str) :
  (forall attempt body,
      http_get (envs attempt) m3u8_url = Some body -> no_segment_lines body) ->
  let r := retry m3u8_url dest_path filename remaining envs fs in
  (forall attempt fs0,
      fst (fst (download_and_merge m3u8_url dest_path (envs attempt) fs0)) = false
      /\ Forall (fun ev => is_tool_run ev = false)
           (snd (download_and_merge m3u8_url dest_path (envs attempt) fs0)))
  /\ fst (fst r) = false
  /\ count is_download (snd r) = 3%nat
  /\ count is_success_note (snd r) = 0%nat
  /\ Forall (fun ev => is_tool_run ev = false) (snd r).
Proof.
  intros H. cbv zeta.
  assert (forall attempt fs0,
      fst (fst (download_and_merge m3u8_url dest_path (envs attempt) fs0)) = false
      /\ Forall (fun ev => is_tool_run ev = false)
           (snd (download_and_merge m3u8_url dest_path (envs attempt) fs0)))
    as Hone.
  { intros attempt fs0. apply download_without_segments. apply H. }
  split; [exact Hone|].
  assert (forall attempt,
             attempt_succeeds m3u8_url dest_path (envs attempt) = false) as Hfail.
  { intros attempt. apply (Hone attempt ∅). }
  unfold retry.
  destruct (attempt_loop_all_fail m3u8_url dest_path filename remaining envs
              (seq 1 MAX_RETRIES) fs) as (H1 & H2 & H3 & _).
  { apply List.Forall_forall. intros j _. apply Hfail. }
  repeat split; try assumption.
  apply attempt_loop_no_tools. intros k fs0. apply Hone.
Qed.

Lemma empty_manifest_fails_without_tools_witness :
  let r := retry (lit "http://h/a/index.m3u8")
             (lit "/content/drive/MyDrive/M3U8/a.mp4") (lit "a.mp4") 0
             (fun _ => empty_manifest_env) ∅ in
  fst (fst r) = false
  /\ count is_download (snd r) = 3%nat
  /\ Forall (fun ev => is_tool_run ev = false) (snd r).
Proof.
  cbv zeta.
  destruct (empty_manifest_fails_without_tools
              (lit "http://h/a/index.m3u8")
              (lit "/content/drive/MyDrive/M3U8/a.mp4") (lit "a.mp4") 0
              (fun _ => empty_manifest_env) ∅) as (_ & H1 & H2 & _ & H4).
  - intros _ body [= <-]. unfold no_segment_lines. vm_compute.
    repeat constructor.
  - repeat split; assumption.
Defined.

(** A list ends with a given suffix: strip the front piece by piece. *)
Ltac ends_with :=
  first [ by exists []
        | apply suffix_cons_r; ends_with
        | apply suffix_app_r; ends_with ].

(** C8, as amended: in the retry loop every failed attempt, the final one
    included, is directly followed by the fixed delay of 5; the loop
    delays nowhere else, so the number of delays is the number of failed
    attempts; and a successful attempt is followed by no delay of the
    loop, its success notice being the last event of the job. *)
Theorem delay_after_every_failed_attempt
  (m3u8_url dest_path filename : str) (remaining : nat)
  (envs : nat -> attempt_env) (fs : gset str) :
  let r := retry m3u8_url dest_path filename remaining envs fs in
  let ok attempt := attempt_succeeds m3u8_url dest_path (envs attempt) in
  failures_then_delay (snd r)
  /\ delay_only_after_failure (snd r)
  /\ (fst (fst r) = true ->
      exists pre, snd r = pre ++ [ENotify (DownloadComplete filename remaining)])
  /\ (ok 1%nat = false -> ok 2%nat = false -> ok 3%nat = false ->
      fst (fst r) = false /\ count is_sleep (snd r) = 3%nat
      /\ exists pre, snd r = pre ++ [ENotify (AttemptFailed 3 m3u8_url); ESleep 5]).
Proof.
  cbv zeta. unfold retry.
  destruct (attempt_loop_delays (seq 1 MAX_RETRIES) m3u8_url dest_path filename
              remaining envs fs) as [Hf Hd].
  split; [exact Hf|]. split; [exact Hd|]. split.
  - change (seq 1 MAX_RETRIES) with [1; 2; 3]%nat.
    destruct (attempt_succeeds m3u8_url dest_path (envs 1%nat)) eqn:E1.
    { rewrite (attempt_loop_success _ _ filename remaining _ _ _ fs E1).
      intros _. cbn [fst snd]. ends_with. }
    destruct (attempt_loop_failure _ _ filename remaining _ _ [2; 3]%nat fs E1)
      as [fs1 ->].
    destruct (attempt_succeeds m3u8_url dest_path (envs 2%nat)) eqn:E2.
    { rewrite (attempt_loop_success _ _ filename remaining _ _ _ fs1 E2).
      intros _. cbn [fst snd]. ends_with. }
    destruct (attempt_loop_failure _ _ filename remaining _ _ [3]%nat fs1 E2)
      as [fs2 ->].
    destruct (attempt_succeeds m3u8_url dest_path (envs 3%nat)) eqn:E3.
    { rewrite (attempt_loop_success _ _ filename remaining _ _ _ fs2 E3).
      intros _. cbn [fst snd]. ends_with. }
    destruct (attempt_loop_failure _ _ filename remaining _ _ [] fs2 E3)
      as [fs3 ->]. cbn [fst snd attempt_loop]. discriminate.
  - intros E1 E2 E3.
    destruct (attempt_loop_all_fail m3u8_url dest_path filename remaining envs
                (seq 1 MAX_RETRIES) fs) as (H1 & _ & _ & H4).
    { repeat constructor; assumption. }
    split; [exact H1|]. split; [exact H4|].
    change (seq 1 MAX_RETRIES) with [1; 2; 3]%nat.
    destruct (attempt_loop_failure _ _ filename remaining _ _ [2; 3]%nat fs E1)
      as [fs1 ->].
    destruct (attempt_loop_failure _ _ filename remaining _ _ [3]%nat fs1 E2)
      as [fs2 ->].
    destruct (attempt_loop_failure _ _ filename remaining _ _ [] fs2 E3)
      as [fs3 ->]. cbn [fst snd attempt_loop]. ends_with.
Qed.

Lemma delay_after_every_failed_attempt_witness :
  (exists pre,
      snd (retry (lit "http://h/a/index.m3u8")
             (lit "/content/drive/MyDrive/M3U8/a.mp4") (lit "a.mp4") 0
             third_time_lucky ∅)
      = pre ++ [ENotify (DownloadComplete (lit "a.mp4") 0)])
  /\ (exists pre,
        snd (retry (lit "http://h/a/index.m3u8")
               (lit "/content/drive/MyDrive/M3U8/a.mp4") (lit "a.mp4") 0
               (fun _ => failing_env) ∅)
        = pre ++ [ENotify (AttemptFailed 3 (lit "http://h/a/index.m3u8"));
                  ESleep 5]).
Proof.
  destruct (delay_after_every_failed_attempt (lit "http://h/a/index.m3u8")
              (lit "/content/drive/MyDrive/M3U8/a.mp4") (lit "a.mp4") 0
              third_time_lucky ∅) as (_ & _ & Hs & _).
  destruct (delay_after_every_failed_attempt (lit "http://h/a/index.m3u8")
              (lit "/content/drive/MyDrive/M3U8/a.mp4") (lit "a.mp4") 0
              (fun _ => failing_env) ∅) as (_ & _ & _ & Hf).
  split.
  - apply Hs. vm_compute. reflexivity.
  - apply Hf; vm_compute; reflexivity.
Defined.

(** C8 as stated fails: the delay follows the third failed attempt too,
    when no attempt remains. *)
Lemma delay_after_final_failure_counterexample :
  ~ spec_delay_iff_attempts_remain
      (snd (retry (lit "http://h/a/index.m3u8")
              (lit "/content/drive/MyDrive/M3U8/a.mp4") (lit "a.mp4") 0
              (fun _ => failing_env) ∅)).
Proof.
  intros H.
  pose (tr := snd (retry (lit "http://h/a/index.m3u8")
                     (lit "/content/drive/MyDrive/M3U8/a.mp4") (lit "a.mp4") 0
                     (fun _ => failing_env) ∅)).
  destruct (H (take 13 tr) [ESleep 5] 3%nat (lit "http://h/a/index.m3u8"))
    as [Hlt _].
  - vm_compute. reflexivity.
  - specialize (Hlt (ex_intro _ [] eq_refl)). unfold MAX_RETRIES in Hlt. lia.
Qed.

(** ** The cursor *)

Lemma handle_update_cursor s u :
  last_update_id (fst (handle_update s u))
  = max_id (last_update_id s) (update_id u).
Proof.
  unfold handle_update, is_new, max_id.
  destruct (last_update_id s) as [c|] eqn:Ec.
  - destruct (Z.ltb_spec c (update_id u)).
    + rewrite Z.max_r by lia.
      destruct (text u) as [t|]; [|reflexivity].
      destruct (parse_message_text t) as [[[|a l]|] fname]; reflexivity.
    + rewrite Z.max_l by lia. exact Ec.
  - destruct (text u) as [t|]; [|reflexivity].
    destruct (parse_message_text t) as [[[|a l]|] fname]; reflexivity.
Qed.

Lemma handle_update_stale s u c :
  last_update_id s = Some c -> (update_id u <= c)%Z ->
  handle_update s u = (s, []).
Proof.
  intros Hc Hle. unfold handle_update, is_new. rewrite Hc.
  destruct (Z.ltb_spec c (update_id u)); [lia | reflexivity].
Qed.

Lemma process_updates_cursor batch s :
  last_update_id (fst (process_updates s batch))
  = max_observed (last_update_id s) batch.
Proof.
  unfold max_observed. revert s. induction batch as [|u rest IH]; intros s;
    [reflexivity|].
  simpl. pose proof (handle_update_cursor s u) as Hu.
  destruct (handle_update s u) as [s1 tr1]. simpl in Hu.
  specialize (IH s1). destruct (process_updates s1 rest) as [s2 tr2].
  simpl in *. rewrite IH, Hu. reflexivity.
Qed.

Lemma max_id_ge cursor uid c :
  max_id cursor uid = Some c ->
  (uid <= c)%Z /\ (forall c0, cursor = Some c0 -> (c0 <= c)%Z)
  /\ (Some c = cursor \/ c = uid).
Proof.
  unfold max_id. destruct cursor as [c0|]; intros [= <-].
  - split; [lia|]. split; [intros ? [= <-]; lia|].
    destruct (Z.max_spec c0 uid) as [[_ ->] | [_ ->]]; auto.
  - split; [lia|]. split; [discriminate | auto].
Qed.

(** [max_observed] is the maximum: it bounds the cursor it starts from
    and every identifier of the batch, and it is one of them. *)
Lemma max_observed_is_max batch cursor :
  (forall c0, cursor = Some c0 ->
     exists m, max_observed cursor batch = Some m /\ (c0 <= m)%Z)
  /\ (forall u, u ∈ batch ->
        exists m, max_observed cursor batch = Some m /\ (update_id u <= m)%Z)
  /\ (max_observed cursor batch = cursor
      \/ exists u, u ∈ batch /\ max_observed cursor batch = Some (update_id u)).
Proof.
  unfold max_observed. revert cursor.
  induction batch as [|u rest IH]; intros cursor; simpl.
  - split; [intros c0 ->; exists c0; split; [reflexivity | lia]|].
    split; [intros u Hu; apply elem_of_nil in Hu; contradiction | left; reflexivity].
  - destruct (IH (max_id cursor (update_id u))) as (Hmono & Hub & Hatt).
    destruct (max_id cursor (update_id u)) as [c1|] eqn:E;
      [|destruct cursor; discriminate E].
    destruct (max_id_ge _ _ _ E) as (Hu & Hc & Hor).
    destruct (Hmono c1 eq_refl) as (m & Hm & Hle).
    split; [|split].
    + intros c0 Hc0. exists m. split; [exact Hm|]. specialize (Hc c0 Hc0). lia.
    + intros v Hv. apply elem_of_cons in Hv as [->|Hv].
      * exists m. split; [exact Hm | lia].
      * apply Hub. exact Hv.
    + destruct Hatt as [Hsame | (v & Hv & Hval)].
      * destruct Hor as [<- | ->].
        -- left. exact Hsame.
        -- right. exists u. split; [left | exact Hsame].
      * right. exists v. split; [right; exact Hv | exact Hval].
Qed.

Lemma process_updates_filter keep c batch s c' :
  (forall u, keep u = false -> (update_id u <= c)%Z) ->
  last_update_id s = Some c' -> (c <= c')%Z ->
  process_updates s batch = process_updates s (List.filter keep batch).
Proof.
  intros Hkeep. revert s c'. induction batch as [|u rest IH]; intros s c' Hs Hle;
    [reflexivity|].
  cbn [List.filter]. destruct (keep u) eqn:Ek.
  - cbn [process_updates]. pose proof (handle_update_cursor s u) as Hu.
    destruct (handle_update s u) as [s1 tr1]. cbn [fst] in Hu.
    rewrite Hs in Hu. cbn [max_id] in Hu.
    rewrite (IH s1 _ Hu) by lia. reflexivity.
  - cbn [process_updates].
    rewrite (handle_update_stale s u c' Hs) by (specialize (Hkeep u Ek); lia).
    rewrite <- (IH s c' Hs Hle).
    destruct (process_updates s rest) as [s2 tr2]. reflexivity.
Qed.

(** C3: after a batch is processed the cursor is the maximum identifier
    observed, that is the largest of the cursor before the batch and the
    identifiers of the batch; and a record whose identifier is at most the
    cursor before the batch changes nothing, so it yields no job whatever
    its text: the batch gives the same queue, cursor and messages as the
    batch without these records. *)
Theorem cursor_is_max_and_stale_records_ignored (s : state) (batch : list update) :
  let cursor' := last_update_id (fst (process_updates s batch)) in
  cursor' = max_observed (last_update_id s) batch
  /\ (forall c0, last_update_id s = Some c0 ->
        exists m, cursor' = Some m /\ (c0 <= m)%Z)
  /\ (forall u, u ∈ batch -> exists m, cursor' = Some m /\ (update_id u <= m)%Z)
  /\ (cursor' = last_update_id s
      \/ exists u, u ∈ batch /\ cursor' = Some (update_id u))
  /\ (forall c0, last_update_id s = Some c0 ->
        process_updates s batch
        = process_updates s
            (List.filter (fun u => (c0 <? update_id u)%Z) batch))
  /\ (forall c0 u, last_update_id s = Some c0 -> (update_id u <= c0)%Z ->
        handle_update s u = (s, [])).
Proof.
  cbv zeta. rewrite process_updates_cursor.
  destruct (max_observed_is_max batch (last_update_id s)) as (H1 & H2 & H3).
  split; [reflexivity|]. split; [exact H1|]. split; [exact H2|].
  split; [exact H3|]. split.
  - intros c0 Hc0. apply (process_updates_filter _ c0 batch s c0); [|exact Hc0|lia].
    intros u Hu. apply Z.ltb_ge in Hu. exact Hu.
  - intros c0 u Hc0 Hu. apply (handle_update_stale s u c0); assumption.
Qed.

Lemma cursor_is_max_and_stale_records_ignored_witness :
  let s := {| last_update_id := Some 7%Z; queue := []; workdir := ∅ |} in
  let batch := [ {| update_id := 5; text := Some (lit "http://h/old.m3u8") |};
                 {| update_id := 9; text := Some (lit "http://h/new.m3u8") |};
                 {| update_id := 8; text := None |} ] in
  last_update_id (fst (process_updates s batch)) = Some 9%Z
  /\ queue (fst (process_updates s batch)) = [(lit "http://h/new.m3u8", None)].
Proof.
  cbv zeta.
  destruct (cursor_is_max_and_stale_records_ignored
              {| last_update_id := Some 7%Z; queue := []; workdir := ∅ |}
              [ {| update_id := 5; text := Some (lit "http://h/old.m3u8") |};
                {| update_id := 9; text := Some (lit "http://h/new.m3u8") |};
                {| update_id := 8; text := None |} ])
    as (Hmax & _ & _ & _ & Hfilter & _).
  split.
  - rewrite Hmax. reflexivity.
  - rewrite (Hfilter 7%Z eq_refl). reflexivity.
Defined.

(** ** Messages that exist at startup *)

Lemma covers_mono cursor cursor' keep :
  covers cursor keep ->
  (forall c0, cursor = Some c0 -> exists c1, cursor' = Some c1 /\ (c0 <= c1)%Z) ->
  covers cursor' keep.
Proof.
  intros Hc Hmono u Hu. destruct (Hc u Hu) as (c & E & Hle).
  destruct (Hmono c E) as (c1 & E1 & Hle1). exists c1. split; [exact E1 | lia].
Qed.

Lemma filter_keep_all (keep : update -> bool) (batch : list update) :
  (forall u, keep u = true) -> List.filter keep batch = batch.
Proof.
  intros H. induction batch as [|u rest IH]; [reflexivity|].
  simpl. rewrite H, IH. reflexivity.
Qed.

Lemma process_updates_covers keep s batch :
  covers (last_update_id s) keep ->
  process_updates s batch = process_updates s (List.filter keep batch).
Proof.
  intros Hc. destruct (last_update_id s) as [c|] eqn:E.
  - apply (process_updates_filter keep c batch s c); [|exact E|lia].
    intros u Hu. destruct (Hc u Hu) as (c' & [= <-] & Hle). exact Hle.
  - rewrite filter_keep_all; [reflexivity|].
    intros u. destruct (keep u) eqn:Hu; [reflexivity|].
    destruct (Hc u Hu) as (c' & Hc' & _). discriminate Hc'.
Qed.

Lemma process_queue_cursor s e :
  last_update_id (fst (process_queue s e)) = last_update_id s.
Proof.
  unfold process_queue. destruct (queue s) as [|[u f] rest]; [reflexivity|].
  destruct (retry _ _ _ _ _ _) as [[ok fs] tr]. reflexivity.
Qed.

Lemma iteration_cursor_mono s e c0 :
  last_update_id s = Some c0 ->
  exists c1, last_update_id (fst (iteration s e)) = Some c1 /\ (c0 <= c1)%Z.
Proof.
  intros Hs. unfold iteration, poll_phase.
  assert (exists c1, last_update_id
            (fst (match poll e with
                  | Some result => process_updates s result
                  | None => (s, [])
                  end)) = Some c1 /\ (c0 <= c1)%Z) as (c1 & E1 & Hle).
  { destruct (poll e) as [result|].
    - rewrite process_updates_cursor.
      destruct (max_observed_is_max result (last_update_id s)) as (H & _).
      exact (H c0 Hs).
    - exists c0. split; [exact Hs | lia]. }
  destruct (match poll e with
            | Some result => process_updates s result
            | None => (s, [])
            end) as [s1 tr1].
  pose proof (process_queue_cursor s1 e) as Hq.
  destruct (process_queue s1 e) as [s2 tr2]. exists c1. simpl in *.
  split; [congruence | exact Hle].
Qed.

Lemma iteration_restrict keep s e :
  covers (last_update_id s) keep ->
  iteration s (restrict_poll keep e) = iteration s e.
Proof.
  intros Hc. unfold iteration, poll_phase.
  assert (match poll (restrict_poll keep e) with
          | Some result => process_updates s result
          | None => (s, [])
          end
          = match poll e with
            | Some result => process_updates s result
            | None => (s, [])
            end) as ->.
  { simpl. destruct (poll e) as [result|]; [|reflexivity]. simpl.
    symmetry. apply process_updates_covers. exact Hc. }
  reflexivity.
Qed.

Lemma run_restrict keep es s :
  covers (last_update_id s) keep ->
  run s (List.map (restrict_poll keep) es) = run s es.
Proof.
  revert s. induction es as [|e rest IH]; intros s Hc; [reflexivity|].
  cbn [List.map run]. rewrite (iteration_restrict keep s e Hc).
  assert (covers (last_update_id (fst (iteration s e))) keep) as Hc1.
  { apply (covers_mono (last_update_id s)); [exact Hc|].
    intros c0. apply iteration_cursor_mono. }
  destruct (iteration s e) as [s1 tr1]. rewrite (IH s1 Hc1). reflexivity.
Qed.

Lemma seen_in_spec old u :
  seen_in old u = true -> exists o, o ∈ old /\ update_id o = update_id u.
Proof.
  unfold seen_in. intros H. apply List.existsb_exists in H as (o & Hin & E).
  exists o. split; [apply list_elem_of_In; exact Hin | apply Z.eqb_eq; exact E].
Qed.

(** The path on which old messages are ignored: when the startup poll
    returns the records that exist, the cursor is set to the identifier of
    the last one, which is the newest as the feed lists records by
    increasing identifier; from then on none of these records ever yields
    a job, the run being the same as if the later polls did not return
    them. *)
Theorem history_ignored_when_startup_poll_succeeds
  (old : list update) (es : list iter_env) (fs : gset str) :
  (forall u m, u ∈ old -> last old = Some m -> (update_id u <= update_id m)%Z) ->
  (forall m, last old = Some m ->
     startup_cursor (Some old) = Some (update_id m)
     /\ forall u, u ∈ old -> (update_id u <= update_id m)%Z)
  /\ (old = [] -> startup_cursor (Some old) = None)
  /\ spec_history_ignored old (Some old) es fs.
Proof.
  intros Hsorted. split; [|split].
  - intros m Hm. split; [simpl; rewrite Hm; reflexivity|].
    intros u Hu. exact (Hsorted u m Hu Hm).
  - intros ->. reflexivity.
  - unfold spec_history_ignored, main_loop. rewrite run_restrict; [reflexivity|].
    cbn [last_update_id]. intros u Hu. apply negb_false_iff in Hu.
    apply seen_in_spec in Hu as (o & Ho & E).
    simpl. destruct (last old) as [m|] eqn:Hm.
    + exists (update_id m). split; [reflexivity|]. rewrite <- E.
      exact (Hsorted o m Ho eq_refl).
    + apply last_None in Hm. subst old. apply elem_of_nil in Ho. contradiction.
Qed.

Lemma history_ignored_when_startup_poll_succeeds_witness :
  startup_cursor (Some [old_message]) = Some 7%Z
  /\ main_loop (Some [old_message]) [replay_iteration] ∅
     = main_loop (Some [old_message])
         [restrict_poll (fun u => negb (seen_in [old_message] u))
            replay_iteration] ∅.
Proof.
  destruct (history_ignored_when_startup_poll_succeeds [old_message]
              [replay_iteration] ∅) as (Hcur & _ & Hsame).
  - intros u m Hu [= <-]. apply list_elem_of_singleton in Hu. subst u. simpl. lia.
  - split; [exact (proj1 (Hcur old_message eq_refl)) | exact Hsame].
Defined.

(** C9: the code at the failing inputs.  The module announces that old
    messages are ignored at start, and the startup block sets the cursor
    to the latest existing identifier for that purpose.  When the startup
    poll raises, or answers without records, the cursor is left unset;
    the first poll of the loop that returns a message sent before the
    start then queues its link, where the path on which the startup poll
    returned that message sends nothing for it. *)
Theorem history_replayed_after_failed_startup_poll :
  startup_cursor None = None
  /\ startup_cursor (Some []) = None
  /\ snd (main_loop None [replay_iteration] ∅) !! 1%nat
     = Some (ENotify (LinkQueued (lit "http://h/a/index.m3u8") 1 1))
  /\ snd (main_loop (Some []) [replay_iteration] ∅) !! 1%nat
     = Some (ENotify (LinkQueued (lit "http://h/a/index.m3u8") 1 1))
  /\ snd (main_loop (Some [old_message]) [replay_iteration] ∅)
     = [ENotify BotActive; ESleep 5]
  /\ ~ spec_history_ignored [old_message] None [replay_iteration] ∅
  /\ ~ spec_history_ignored [old_message] (Some []) [replay_iteration] ∅.
Proof.
  split; [reflexivity|]. split; [reflexivity|].
  split; [vm_compute; reflexivity|]. split; [vm_compute; reflexivity|].
  split; [vm_compute; reflexivity|].
  split; unfold spec_history_ignored; intros H;
    apply (f_equal (fun r => length (snd r))) in H; vm_compute in H;
    discriminate H.
Qed.

(** * Further properties of the code *)

(** ** The queue *)

Lemma handle_update_parts s u :
  handle_update s u
  = ({| last_update_id := max_id (last_update_id s) (update_id u);
        queue := queue s
                 ++ (if is_new (last_update_id s) (update_id u)
                     then option_list (job_of u) else []);
        workdir := workdir s |},
     queued_notes (length (queue s))
       (if is_new (last_update_id s) (update_id u)
        then option_list (job_of u) else [])).
Proof.
  pose proof (handle_update_cursor s u) as Hc.
  unfold handle_update, job_of in *.
  destruct (is_new (last_update_id s) (update_id u)).
  - rewrite <- Hc. destruct (text u) as [t|]; simpl.
    + destruct (parse_message_text t) as [[[|c l]|] fname]; simpl;
        rewrite ?app_nil_r; try reflexivity.
      rewrite length_app. simpl. rewrite Nat.add_1_r. reflexivity.
    + rewrite app_nil_r. reflexivity.
  - rewrite <- Hc. simpl. rewrite app_nil_r. destruct s; reflexivity.
Qed.

Lemma queued_notes_app n a b :
  queued_notes n (a ++ b) = queued_notes n a ++ queued_notes (n + length a) b.
Proof.
  revert n. induction a as [|j a IH]; intros n; simpl.
  - rewrite Nat.add_0_r. reflexivity.
  - rewrite IH, Nat.add_succ_r. reflexivity.
Qed.

Lemma process_updates_parts batch s :
  process_updates s batch
  = ({| last_update_id := max_observed (last_update_id s) batch;
        queue := queue s ++ fresh_jobs (last_update_id s) batch;
        workdir := workdir s |},
     queued_notes (length (queue s)) (fresh_jobs (last_update_id s) batch)).
Proof.
  revert s. induction batch as [|u rest IH]; intros s.
  - simpl. rewrite app_nil_r. destruct s; reflexivity.
  - cbn [process_updates]. rewrite handle_update_parts, IH.
    cbn [last_update_id queue workdir fresh_jobs].
    unfold max_observed. cbn [List.map fold_left].
    destruct (is_new (last_update_id s) (update_id u)) eqn:E.
    + assert (max_id (last_update_id s) (update_id u) = Some (update_id u)) as ->.
      { unfold is_new, max_id in *. destruct (last_update_id s) as [c|];
          [|reflexivity]. apply Z.ltb_lt in E. rewrite Z.max_r by lia.
        reflexivity. }
      rewrite queued_notes_app, length_app, <- app_assoc. reflexivity.
    + assert (max_id (last_update_id s) (update_id u) = last_update_id s) as ->.
      { unfold is_new, max_id in *. destruct (last_update_id s) as [c|];
          [|discriminate]. apply Z.ltb_ge in E. rewrite Z.max_l by lia.
        reflexivity. }
      rewrite !app_nil_r. reflexivity.
Qed.

Lemma fresh_jobs_sublist cursor batch :
  fresh_jobs cursor batch `sublist_of` omap job_of batch.
Proof.
  revert cursor. induction batch as [|u rest IH]; intros cursor; simpl.
  - constructor.
  - destruct (is_new cursor (update_id u)).
    + destruct (job_of u) as [j|]; simpl; [constructor|]; apply IH.
    + destruct (job_of u) as [j|]; [apply sublist_cons|]; apply IH.
Qed.

Lemma fresh_jobs_increasing cursor batch :
  increasing_above cursor batch -> fresh_jobs cursor batch = omap job_of batch.
Proof.
  revert cursor. induction batch as [|u rest IH]; intros cursor; simpl;
    [reflexivity|].
  intros [-> H]. rewrite (IH _ H). destruct (job_of u); reflexivity.
Qed.

Lemma queued_notes_length n added : length (queued_notes n added) = length added.
Proof.
  revert n. induction added as [|j r IH]; intros n; simpl; [|rewrite IH]; reflexivity.
Qed.

Lemma queued_notes_lookup n added i j :
  added !! i = Some j ->
  queued_notes n added !! i
  = Some (ENotify (LinkQueued (fst j) (n + i + 1) (n + i + 1))).
Proof.
  revert n i. induction added as [|a r IH]; intros n i H; [discriminate|].
  destruct i as [|i]; simpl in *.
  - injection H as ->. rewrite Nat.add_0_r, Nat.add_1_r. reflexivity.
  - rewrite (IH _ _ H). rewrite !Nat.add_1_r, Nat.add_succ_r. reflexivity.
Qed.

(** X1: A batch only appends to the queue: the jobs already queued keep their
    places, the new jobs follow in the order of their records, the working
    directory is not touched, and one notice is sent per new job. *)
Theorem batch_appends_in_order (s : state) (batch : list update) :
  let r := process_updates s batch in
  exists added,
    queue (fst r) = queue s ++ added
    /\ added `sublist_of` omap job_of batch
    /\ workdir (fst r) = workdir s
    /\ length (snd r) = length added.
Proof.
  cbv zeta. rewrite process_updates_parts. cbn [fst snd queue workdir].
  exists (fresh_jobs (last_update_id s) batch).
  split; [reflexivity|]. split; [apply fresh_jobs_sublist|].
  split; [reflexivity | apply queued_notes_length].
Qed.

(** X2: When the identifiers of a batch increase strictly and lie above the
    cursor, every record with a valid link is queued, in batch order. *)
Theorem increasing_batch_queues_every_link (s : state) (batch : list update) :
  increasing_above (last_update_id s) batch ->
  queue (fst (process_updates s batch)) = queue s ++ omap job_of batch.
Proof.
  intros H. rewrite process_updates_parts. cbn [fst queue].
  rewrite (fresh_jobs_increasing _ _ H). reflexivity.
Qed.

Lemma increasing_batch_queues_every_link_witness :
  queue (fst (process_updates fresh_state [old_message; new_message]))
  = [(lit "http://h/a/index.m3u8", None);
     (lit "https://cdn.example/a/index.m3u8", Some (lit "Algebra Lecture.mp4"))].
Proof.
  rewrite (increasing_batch_queues_every_link fresh_state
             [old_message; new_message]).
  - reflexivity.
  - repeat split.
Defined.

(** X3: The notice of the i-th job a batch adds reports, as position and as
    total alike, the length the queue has once that job is appended. *)
Theorem queue_notice_reports_length (s : state) (batch : list update) (i : nat) (ev : event) :
  snd (process_updates s batch) !! i = Some ev ->
  exists j,
    queue (fst (process_updates s batch)) !! (length (queue s) + i)%nat = Some j
    /\ ev = ENotify (LinkQueued (fst j) (length (queue s) + i + 1)
                       (length (queue s) + i + 1)).
Proof.
  rewrite process_updates_parts. cbn [fst snd queue]. intros H.
  assert (i < length (fresh_jobs (last_update_id s) batch))%nat as Hi.
  { rewrite <- (queued_notes_length (length (queue s))).
    apply lookup_lt_Some in H. exact H. }
  destruct (lookup_lt_is_Some_2 _ _ Hi) as [j Hj]. exists j. split.
  - unfold job in *. rewrite lookup_app_r by lia.
    rewrite Nat.add_comm, Nat.add_sub. exact Hj.
  - rewrite (queued_notes_lookup _ _ _ _ Hj) in H. congruence.
Qed.

Lemma queue_notice_reports_length_witness :
  exists j,
    queue (fst (process_updates fresh_state [old_message; new_message]))
      !! (length (queue fresh_state) + 1)%nat = Some j
    /\ ENotify (LinkQueued (lit "https://cdn.example/a/index.m3u8") 2 2)
       = ENotify (LinkQueued (fst j) (length (queue fresh_state) + 1 + 1)
                    (length (queue fresh_state) + 1 + 1)).
Proof.
  apply (queue_notice_reports_length fresh_state [old_message; new_message]
           1%nat).
  reflexivity.
Defined.

Lemma attempt_loop_events attempts m3u8_url dest_path filename remaining envs fs :
  Forall (fun ev => is_attempt_level ev = true)
    (snd (attempt_loop attempts m3u8_url dest_path filename remaining envs fs)).
Proof.
  revert fs. induction attempts as [|k rest IH]; intros fs; [constructor|].
  assert (Forall (fun ev => is_attempt_level ev = true)
            (snd (download_and_merge m3u8_url dest_path (envs k) fs))) as Hin.
  { eapply Forall_impl; [apply download_trace_inner|].
    intros ev Hev. destruct ev as [[]| | | | | |]; try reflexivity;
      discriminate Hev. }
  destruct (attempt_succeeds m3u8_url dest_path (envs k)) eqn:E.
  - rewrite (attempt_loop_success _ _ filename remaining _ k rest fs E).
    cbn [fst snd]. repeat (apply Forall_cons; split; [reflexivity|]).
    apply Forall_app. split; [exact Hin | repeat constructor].
  - destruct (attempt_loop_failure _ _ filename remaining _ k rest fs E)
      as [fs1 ->]. cbn [fst snd].
    repeat (apply Forall_cons; split; [reflexivity|]).
    apply Forall_app. split; [exact Hin|].
    repeat (apply Forall_cons; split; [reflexivity|]). apply IH.
Qed.

Lemma attempt_level_filter f tr :
  (forall ev, is_attempt_level ev = true -> f ev = false) ->
  Forall (fun ev => is_attempt_level ev = true) tr -> List.filter f tr = [].
Proof.
  intros Hf H. induction H as [|ev l Hev _ IH]; [reflexivity|].
  simpl. rewrite (Hf ev Hev). exact IH.
Qed.

Lemma attempt_level_not_started tr :
  Forall (fun ev => is_attempt_level ev = true) tr -> started_urls tr = [].
Proof.
  unfold started_urls. induction 1 as [|ev l Hev _ IH]; [reflexivity|].
  destruct ev as [[]| | | | | |]; try discriminate Hev; exact IH.
Qed.

Lemma attempt_level_terminal tr :
  Forall (fun ev => is_attempt_level ev = true) tr ->
  List.filter is_terminal_note tr = List.filter is_success_note tr.
Proof.
  induction 1 as [|ev l Hx _ IHl]; [reflexivity|].
  simpl. rewrite IHl. unfold is_terminal_note.
  destruct ev as [[]| | | | | |]; try reflexivity; discriminate Hx.
Qed.

Lemma count_app f a b : count f (a ++ b) = (count f a + count f b)%nat.
Proof. unfold count. rewrite List.filter_app, length_app. reflexivity. Qed.

Lemma count_cons f x l :
  count f (x :: l) = ((if f x then 1 else 0) + count f l)%nat.
Proof. unfold count. simpl. destruct (f x); reflexivity. Qed.

Lemma started_urls_app a b : started_urls (a ++ b) = started_urls a ++ started_urls b.
Proof. unfold started_urls. apply omap_app. Qed.

Lemma attempt_loop_success_count attempts m3u8_url dest_path filename remaining envs fs :
  let r := attempt_loop attempts m3u8_url dest_path filename remaining envs fs in
  count is_success_note (snd r) = (if fst (fst r) then 1 else 0)%nat
  /\ (fst (fst r) = true ->
      exists pre, snd r = pre ++ [ENotify (DownloadComplete filename remaining)]).
Proof.
  cbv zeta. unfold count. revert fs.
  induction attempts as [|k rest IH]; intros fs; [split; [reflexivity|discriminate]|].
  pose proof (download_trace_inner m3u8_url dest_path (envs k) fs) as Hin.
  assert (List.filter is_success_note
            (snd (download_and_merge m3u8_url dest_path (envs k) fs)) = []) as Hnil.
  { induction Hin as [|ev l Hev _ IHl]; [reflexivity|].
    simpl. rewrite IHl. destruct ev; try reflexivity; discriminate Hev. }
  destruct (attempt_succeeds m3u8_url dest_path (envs k)) eqn:E.
  - rewrite (attempt_loop_success _ _ filename remaining _ k rest fs E).
    cbn [fst snd]. split; [|intros _; ends_with].
    rewrite List.filter_app. cbn [List.filter is_success_note]. rewrite Hnil.
    reflexivity.
  - destruct (attempt_loop_failure _ _ filename remaining _ k rest fs E)
      as [fs1 ->]. cbn [fst snd]. destruct (IH fs1) as [IH1 IH2]. split.
    + rewrite List.filter_app. cbn [List.filter is_success_note]. rewrite Hnil.
      cbn [app]. exact IH1.
    + intros Hs. destruct (IH2 Hs) as [pre ->].
      exists (ENotify (AttemptStarted k MAX_RETRIES) :: EDownload m3u8_url dest_path
              :: snd (download_and_merge m3u8_url dest_path (envs k) fs)
              ++ ENotify (AttemptFailed k m3u8_url) :: ESleep 5 :: pre).
      cbn [app]. rewrite <- app_assoc. reflexivity.
Qed.

Lemma process_queue_cons s e u cf rest :
  queue s = (u, cf) :: rest ->
  process_queue s e
  = (let r := retry u (job_dest_path (now e) cf) (job_filename (now e) cf)
                (length rest) (attempt_envs e) (workdir s) in
     ({| last_update_id := last_update_id s; queue := rest;
         workdir := snd (fst r) |},
      ENotify (StartingDownload u (length rest)) :: snd r
      ++ (if fst (fst r) then []
          else [ENotify (AllAttemptsFailed u (length rest))]))).
Proof.
  intros H. unfold process_queue. rewrite H.
  unfold job_dest_path, job_filename. cbv zeta.
  destruct (retry _ _ _ _ _ _) as [[ok fs] tr]. reflexivity.
Qed.

Lemma process_queue_nil s e : queue s = [] -> process_queue s e = (s, []).
Proof. intros H. unfold process_queue. rewrite H. reflexivity. Qed.

(** X4: Taking a job off the queue: the head is the job announced and
    handled, the rest of the queue keeps its order, and the job does not
    come back whether its download succeeded or not.  The cursor is not
    touched. *)
Theorem dequeue_takes_head_for_good (s : state) (e : iter_env) (j : job)
  (rest : list job) :
  queue s = j :: rest ->
  let r := process_queue s e in
  queue (fst r) = rest
  /\ last_update_id (fst r) = last_update_id s
  /\ head (snd r) = Some (ENotify (StartingDownload (fst j) (length rest)))
  /\ started_urls (snd r) = [fst j].
Proof.
  destruct j as [u cf]. intros H. cbv zeta.
  rewrite (process_queue_cons s e u cf rest H). cbv zeta. cbn [fst snd queue].
  repeat split.
  change (started_urls (?x :: ?l)) with (started_urls ([x] ++ l)).
  rewrite !started_urls_app. unfold retry.
  rewrite (attempt_level_not_started _ (attempt_loop_events _ _ _ _ _ _ _)).
  destruct (fst (fst _)); reflexivity.
Qed.

Lemma dequeue_takes_head_for_good_witness :
  queue (fst (process_queue two_jobs_state idle_iteration))
  = [(lit "http://h/b.m3u8", Some (lit "b.mp4"))]
  /\ started_urls (snd (process_queue two_jobs_state idle_iteration))
     = [lit "http://h/a.m3u8"].
Proof.
  destruct (dequeue_takes_head_for_good two_jobs_state idle_iteration
              (lit "http://h/a.m3u8", None)
              [(lit "http://h/b.m3u8", Some (lit "b.mp4"))] eq_refl)
    as (H1 & _ & _ & H4).
  split; assumption.
Defined.

Lemma retry_outcome u d f n envs fs :
  fst (fst (retry u d f n envs fs))
  = attempt_succeeds u d (envs 1%nat) || attempt_succeeds u d (envs 2%nat)
    || attempt_succeeds u d (envs 3%nat).
Proof.
  unfold retry. change (seq 1 MAX_RETRIES) with [1; 2; 3]%nat.
  destruct (attempt_succeeds u d (envs 1%nat)) eqn:E1.
  { rewrite (attempt_loop_success _ _ f n _ _ _ fs E1). reflexivity. }
  destruct (attempt_loop_failure _ _ f n _ _ [2; 3]%nat fs E1) as [fs1 ->].
  cbn [fst snd].
  destruct (attempt_succeeds u d (envs 2%nat)) eqn:E2.
  { rewrite (attempt_loop_success _ _ f n _ _ _ fs1 E2). reflexivity. }
  destruct (attempt_loop_failure _ _ f n _ _ [3]%nat fs1 E2) as [fs2 ->].
  cbn [fst snd].
  destruct (attempt_succeeds u d (envs 3%nat)) eqn:E3.
  { rewrite (attempt_loop_success _ _ f n _ _ _ fs2 E3). reflexivity. }
  destruct (attempt_loop_failure _ _ f n _ _ [] fs2 E3) as [fs3 ->].
  reflexivity.
Qed.

(** X5: Every job taken off the queue ends with exactly one terminal notice,
    which closes its log.  When one of the three attempts succeeds in its
    world it is the success notice, and no all-attempts-failed notice is
    sent; when none does it is the all-attempts-failed notice, and no
    success notice is sent. *)
Theorem one_terminal_notice_per_job (s : state) (e : iter_env) (u : str)
  (cf : option str) (rest : list job) :
  queue s = (u, cf) :: rest ->
  let tr := snd (process_queue s e) in
  let ok k :=
    attempt_succeeds u (job_dest_path (now e) cf) (attempt_envs e k) in
  count is_terminal_note tr = 1%nat
  /\ (ok 1%nat || ok 2%nat || ok 3%nat = true ->
      last tr = Some (ENotify (DownloadComplete (job_filename (now e) cf)
                                 (length rest)))
      /\ count is_success_note tr = 1%nat
      /\ count is_all_failed_note tr = 0%nat)
  /\ (ok 1%nat || ok 2%nat || ok 3%nat = false ->
      last tr = Some (ENotify (AllAttemptsFailed u (length rest)))
      /\ count is_all_failed_note tr = 1%nat
      /\ count is_success_note tr = 0%nat).
Proof.
  intros H. cbv zeta. rewrite (process_queue_cons s e u cf rest H). cbv zeta.
  cbn [fst snd].
  pose proof (retry_outcome u (job_dest_path (now e) cf)
                (job_filename (now e) cf) (length rest) (attempt_envs e)
                (workdir s)) as Hout.
  unfold retry in *.
  match goal with |- context [snd ?x ++ _] => set (r := x) in * end.
  change (fst (fst r)
          = attempt_succeeds u (job_dest_path (now e) cf) (attempt_envs e 1%nat)
            || attempt_succeeds u (job_dest_path (now e) cf)
                 (attempt_envs e 2%nat)
            || attempt_succeeds u (job_dest_path (now e) cf)
                 (attempt_envs e 3%nat)) in Hout.
  rewrite <- Hout. clear Hout.
  assert (Forall (fun ev => is_attempt_level ev = true) (snd r)) as Hev
    by apply attempt_loop_events.
  destruct (attempt_loop_success_count (seq 1 MAX_RETRIES) u
              (job_dest_path (now e) cf) (job_filename (now e) cf)
              (length rest) (attempt_envs e) (workdir s)) as [Hc Hl].
  change (count is_success_note (snd r)
          = (if fst (fst r) then 1 else 0)%nat) in Hc.
  change (fst (fst r) = true ->
          exists pre, snd r
                      = pre ++ [ENotify (DownloadComplete
                                           (job_filename (now e) cf)
                                           (length rest))]) in Hl.
  assert (count is_all_failed_note (snd r) = 0%nat) as Hnf.
  { unfold count. rewrite attempt_level_filter; [reflexivity| |exact Hev].
    intros [[]| | | | | |] Hx; try reflexivity; discriminate Hx. }
  assert (count is_terminal_note (snd r) = count is_success_note (snd r))
    as Hterm.
  { unfold count. rewrite attempt_level_terminal by exact Hev. reflexivity. }
  rewrite !count_cons, !count_app, Hnf, Hterm, Hc.
  destruct (fst (fst r)) eqn:Hok.
  - rewrite app_nil_r. destruct (Hl eq_refl) as [pre Hpre].
    split; [reflexivity|]. split; [|intros Hx; discriminate Hx].
    intros _. split; [|split; reflexivity].
    rewrite Hpre, app_comm_cons. apply last_snoc.
  - split; [reflexivity|]. split; [intros Hx; discriminate Hx|].
    intros _. split; [|split; reflexivity].
    rewrite app_comm_cons. apply last_snoc.
Qed.

Lemma one_terminal_notice_per_job_witness :
  (last (snd (process_queue two_jobs_state idle_iteration))
   = Some (ENotify (DownloadComplete
                      (job_filename (lit "20240101_000000") None) 1))
   /\ count is_all_failed_note
        (snd (process_queue two_jobs_state idle_iteration)) = 0%nat)
  /\ (last (snd (process_queue two_jobs_state replay_iteration))
      = Some (ENotify (AllAttemptsFailed (lit "http://h/a.m3u8") 1))
      /\ count is_success_note
           (snd (process_queue two_jobs_state replay_iteration)) = 0%nat).
Proof.
  destruct (one_terminal_notice_per_job two_jobs_state idle_iteration
              (lit "http://h/a.m3u8") None
              [(lit "http://h/b.m3u8", Some (lit "b.mp4"))] eq_refl)
    as (_ & Hs & _).
  destruct (one_terminal_notice_per_job two_jobs_state replay_iteration
              (lit "http://h/a.m3u8") None
              [(lit "http://h/b.m3u8", Some (lit "b.mp4"))] eq_refl)
    as (_ & _ & Hf).
  split.
  - destruct Hs as (H1 & _ & H3); [vm_compute; reflexivity|].
    split; assumption.
  - destruct Hf as (H1 & _ & H3); [vm_compute; reflexivity|].
    split; assumption.
Defined.

(** ** One iteration and a run of iterations *)

Lemma started_urls_queued_notes n added : started_urls (queued_notes n added) = [].
Proof.
  revert n. induction added as [|j r IH]; intros n; [reflexivity|]. apply IH.
Qed.

Lemma process_queue_head s e :
  started_urls (snd (process_queue s e)) = fst <$> take 1 (queue s)
  /\ queue (fst (process_queue s e)) = drop 1 (queue s)
  /\ last_update_id (fst (process_queue s e)) = last_update_id s.
Proof.
  destruct (queue s) as [|[u cf] rest] eqn:E.
  - rewrite (process_queue_nil s e E). cbn [fst snd]. rewrite E. repeat split.
  - rewrite (process_queue_cons s e u cf rest E). cbv zeta. cbn [fst snd queue].
    split; [|split; reflexivity].
    change (started_urls (?x :: ?l)) with (started_urls ([x] ++ l)).
    rewrite !started_urls_app. unfold retry.
    rewrite (attempt_level_not_started _ (attempt_loop_events _ _ _ _ _ _ _)).
    destruct (fst (fst _)); reflexivity.
Qed.

Lemma iteration_parts s e :
  let added := match poll e with
               | Some batch => fresh_jobs (last_update_id s) batch
               | None => []
               end in
  started_urls (snd (iteration s e)) = fst <$> take 1 (queue s ++ added)
  /\ queue (fst (iteration s e)) = drop 1 (queue s ++ added)
  /\ last (snd (iteration s e)) = Some (ESleep POLL_INTERVAL)
  /\ added `sublist_of` omap job_of (default [] (poll e)).
Proof.
  cbv zeta. unfold iteration, poll_phase.
  assert (match poll e with
          | Some result => process_updates s result
          | None => (s, [])
          end
          = ({| last_update_id :=
                  match poll e with
                  | Some batch => max_observed (last_update_id s) batch
                  | None => last_update_id s
                  end;
                queue := queue s ++ match poll e with
                                    | Some batch =>
                                        fresh_jobs (last_update_id s) batch
                                    | None => []
                                    end;
                workdir := workdir s |},
             queued_notes (length (queue s))
               match poll e with
               | Some batch => fresh_jobs (last_update_id s) batch
               | None => []
               end)) as ->.
  { destruct (poll e) as [batch|]; [apply process_updates_parts|].
    rewrite app_nil_r. destruct s; reflexivity. }
  match goal with |- context [process_queue ?s1 e] =>
    destruct (process_queue_head s1 e) as (H1 & H2 & _);
    destruct (process_queue s1 e) as [s2 tr2] end.
  cbn [fst snd queue] in *.
  rewrite !started_urls_app, started_urls_queued_notes, H1, H2.
  split; [rewrite app_nil_r; reflexivity|]. split; [reflexivity|]. split.
  - rewrite !app_assoc. apply last_snoc.
  - destruct (poll e) as [batch|]; [apply fresh_jobs_sublist | constructor].
Qed.

Lemma iteration_log_starts_with_notices s e :
  queued_notes (length (queue s))
    match poll e with
    | Some batch => fresh_jobs (last_update_id s) batch
    | None => []
    end
  `prefix_of` snd (iteration s e).
Proof.
  unfold iteration, poll_phase.
  destruct (poll e) as [batch|].
  - rewrite process_updates_parts.
    destruct (process_queue _ e) as [s2 tr2]. cbn [snd].
    eexists. reflexivity.
  - destruct (process_queue s e) as [s2 tr2]. apply prefix_nil.
Qed.

(** X6: One iteration of the loop appends the jobs of the poll first: the
    jobs of the records that are new when their turn comes, which for
    identifiers increasing above the cursor is every valid link of the
    batch, and none when the poll fails; their queue notices open the log.
    It then starts the job at the head of the resulting queue, at most
    that one, keeps the rest in order, and ends with the poll-interval
    sleep. *)
Theorem iteration_enqueues_then_starts_head (s : state) (e : iter_env) :
  let r := iteration s e in
  let added := match poll e with
               | Some batch => fresh_jobs (last_update_id s) batch
               | None => []
               end in
  started_urls (snd r) = fst <$> take 1 (queue s ++ added)
  /\ queue (fst r) = drop 1 (queue s ++ added)
  /\ queued_notes (length (queue s)) added `prefix_of` snd r
  /\ (length (started_urls (snd r)) <= 1)%nat
  /\ last (snd r) = Some (ESleep POLL_INTERVAL)
  /\ (forall batch, poll e = Some batch ->
        increasing_above (last_update_id s) batch ->
        added = omap job_of batch).
Proof.
  cbv zeta. destruct (iteration_parts s e) as (H1 & H2 & H3 & _).
  split; [exact H1|]. split; [exact H2|].
  split; [apply iteration_log_starts_with_notices|].
  split; [rewrite H1, length_fmap, length_take; lia|].
  split; [exact H3|].
  intros batch -> Hinc. apply fresh_jobs_increasing. exact Hinc.
Qed.

Lemma iteration_enqueues_then_starts_head_witness :
  started_urls (snd (iteration fresh_state busy_iteration))
  = [lit "http://h/a/index.m3u8"]
  /\ queue (fst (iteration fresh_state busy_iteration))
     = [(lit "https://cdn.example/a/index.m3u8",
         Some (lit "Algebra Lecture.mp4"))].
Proof.
  destruct (iteration_enqueues_then_starts_head fresh_state busy_iteration)
    as (H1 & H2 & _ & _ & _ & Hadd).
  rewrite H1, H2, (Hadd [old_message; new_message] eq_refl);
    [split; reflexivity | repeat split].
Defined.

Lemma take_drop_1 {A} (l : list A) : take 1 l ++ drop 1 l = l.
Proof. apply take_drop. Qed.

(** X7: Over any run of the loop no job is lost, duplicated or reordered: the
    links started, followed by the links still queued, are the links
    queued at the beginning followed by links the polls offered, in the
    order they were offered. *)
Theorem run_keeps_fifo_order (s : state) (es : list iter_env) :
  exists added,
    started_urls (snd (run s es)) ++ (fst <$> queue (fst (run s es)))
    = (fst <$> queue s) ++ added
    /\ added `sublist_of` offered_urls es.
Proof.
  revert s. induction es as [|e rest IH]; intros s.
  - exists []. simpl. rewrite app_nil_r. split; [reflexivity | constructor].
  - cbn [run]. destruct (iteration_parts s e) as (H1 & H2 & _ & H4).
    destruct (iteration s e) as [s1 tr1]. cbn [fst snd] in *.
    destruct (IH s1) as (added & Hrest & Hsub).
    destruct (run s1 rest) as [s2 tr2]. cbn [fst snd] in *.
    eexists. split.
    + rewrite started_urls_app, <- app_assoc, Hrest, H1, H2, app_assoc.
      rewrite <- fmap_app, take_drop_1, fmap_app, <- app_assoc. reflexivity.
    + unfold offered_urls. cbn [fmap list_fmap concat].
      apply sublist_app; [|exact Hsub]. apply fmap_sublist. exact H4.
Qed.

(** X8: Draining: over iterations whose polls bring nothing, the jobs are
    started in the order in which they were queued, one per iteration,
    and the queue that is left is the rest. *)
Theorem idle_run_drains_in_order (s : state) (es : list iter_env) :
  Forall (fun e => poll e = None \/ poll e = Some []) es ->
  started_urls (snd (run s es)) = fst <$> take (length es) (queue s)
  /\ queue (fst (run s es)) = drop (length es) (queue s).
Proof.
  intros H. revert s. induction H as [|e rest He _ IH]; intros s.
  - split; reflexivity.
  - cbn [run]. destruct (iteration_parts s e) as (H1 & H2 & _ & _).
    assert (match poll e with
            | Some batch => fresh_jobs (last_update_id s) batch
            | None => []
            end = []) as Hnone by (destruct He as [-> | ->]; reflexivity).
    rewrite Hnone, app_nil_r in H1, H2.
    destruct (iteration s e) as [s1 tr1]. cbn [fst snd] in *.
    destruct (IH s1) as [IH1 IH2].
    destruct (run s1 rest) as [s2 tr2]. cbn [fst snd length] in *.
    rewrite started_urls_app, H1, IH1, IH2, H2. split.
    + rewrite <- fmap_app. f_equal.
      destruct (queue s); [rewrite ?drop_nil, ?take_nil|]; reflexivity.
    + destruct (queue s); [rewrite ?drop_nil|]; reflexivity.
Qed.

Lemma idle_run_drains_in_order_witness :
  started_urls (snd (run two_jobs_state [idle_iteration; idle_iteration]))
  = [lit "http://h/a.m3u8"; lit "http://h/b.m3u8"]
  /\ queue (fst (run two_jobs_state [idle_iteration; idle_iteration])) = [].
Proof.
  apply (idle_run_drains_in_order two_jobs_state
           [idle_iteration; idle_iteration]).
  repeat constructor.
Defined.

(** X9: Once set, the cursor is never unset and never decreases, whatever the
    polls return and whatever happens to the jobs. *)
Theorem cursor_never_decreases (s : state) (es : list iter_env) (c0 : Z) :
  last_update_id s = Some c0 ->
  exists c1, last_update_id (fst (run s es)) = Some c1 /\ (c0 <= c1)%Z.
Proof.
  revert s c0. induction es as [|e rest IH]; intros s c0 H.
  - exists c0. split; [exact H | lia].
  - cbn [run]. destruct (iteration_cursor_mono s e c0 H) as (c1 & H1 & Hle).
    destruct (iteration s e) as [s1 tr1]. cbn [fst] in H1.
    destruct (IH s1 c1 H1) as (c2 & H2 & Hle2).
    destruct (run s1 rest) as [s2 tr2]. exists c2. split; [exact H2 | lia].
Qed.

Lemma cursor_never_decreases_witness :
  exists c1,
    last_update_id (fst (run two_jobs_state [replay_iteration; idle_iteration]))
    = Some c1 /\ (7 <= c1)%Z.
Proof.
  apply (cursor_never_decreases two_jobs_state
           [replay_iteration; idle_iteration] 7%Z).
  reflexivity.
Defined.

(** ** The steps of one attempt *)

Lemma download_success url out e fs :
  attempt_succeeds url out e = true ->
  exists body,
    http_get e url = Some body
    /\ chunk_urls_of url body <> []
    /\ snd (download_and_merge url out e fs)
       = [EGet url; EWrite (lit "playlist.m3u8") [body];
          EWrite (lit "chunks.txt") (chunk_urls_of url body);
          ERun aria_cmd; ERun cat_cmd; ERun ffmpeg_cmd;
          ECopy (lit "output.mp4") out]
    /\ exists fs1, snd (fst (download_and_merge url out e fs))
                   = cleanup e ({[out]} ∪ fs1).
Proof.
  rewrite <- (download_result_indep url out e fs).
  unfold download_and_merge, try_block.
  unfold fetch, write_text, safe_run, copy_to, log, raise, mbind, M_bind, bind, ret.
  destruct (http_get e url) as [body|]; [|intros H; cbv beta iota zeta delta [fst snd] in H; discriminate H].
  destruct (write_file e (lit "playlist.m3u8")); try (intros H; cbv beta iota zeta delta [fst snd] in H; discriminate H).
  destruct (chunk_urls_of url body) as [|c0 cs] eqn:Ec; [intros H; cbv beta iota zeta delta [fst snd] in H; discriminate H|].
  destruct (write_file e (lit "chunks.txt")); try (intros H; cbv beta iota zeta delta [fst snd] in H; discriminate H).
  destruct (cmd_ok e aria_cmd); [|intros H; cbv beta iota zeta delta [fst snd] in H; discriminate H].
  destruct (cmd_ok e cat_cmd); [|intros H; cbv beta iota zeta delta [fst snd] in H; discriminate H].
  destruct (cmd_ok e ffmpeg_cmd); [|intros H; cbv beta iota zeta delta [fst snd] in H; discriminate H].
  destruct (copy_file e);
    try (intros H; cbv beta iota zeta delta [fst snd] in H; discriminate H).
  intros _. exists body. rewrite Ec. split; [reflexivity|]. split; [done|].
  split; [reflexivity|]. eexists. reflexivity.
Qed.

(** X10: A successful attempt has gone through every step once and in order:
    the fetch, the manifest copy, the segment-list file holding exactly the
    segment list, the three commands, and the copy to the destination;
    and the manifest it fetched had at least one segment. *)
Theorem successful_attempt_runs_every_step (url out : str) (e : attempt_env)
  (fs : gset str) :
  fst (fst (download_and_merge url out e fs)) = true ->
  exists body,
    http_get e url = Some body
    /\ chunk_urls_of url body <> []
    /\ snd (download_and_merge url out e fs)
       = [EGet url; EWrite (lit "playlist.m3u8") [body];
          EWrite (lit "chunks.txt") (chunk_urls_of url body);
          ERun aria_cmd; ERun cat_cmd; ERun ffmpeg_cmd;
          ECopy (lit "output.mp4") out].
Proof.
  rewrite download_result_indep. intros H.
  destruct (download_success url out e fs H) as (body & H1 & H2 & H3 & _).
  exists body. auto.
Qed.

Lemma successful_attempt_runs_every_step_witness :
  exists body,
    http_get good_env (lit "http://h/a/index.m3u8") = Some body
    /\ chunk_urls_of (lit "http://h/a/index.m3u8") body <> []
    /\ snd (download_and_merge (lit "http://h/a/index.m3u8")
              (lit "/content/drive/MyDrive/M3U8/a.mp4") good_env ∅)
       = [EGet (lit "http://h/a/index.m3u8");
          EWrite (lit "playlist.m3u8") [body];
          EWrite (lit "chunks.txt")
            (chunk_urls_of (lit "http://h/a/index.m3u8") body);
          ERun aria_cmd; ERun cat_cmd; ERun ffmpeg_cmd;
          ECopy (lit "output.mp4") (lit "/content/drive/MyDrive/M3U8/a.mp4")].
Proof.
  apply (successful_attempt_runs_every_step (lit "http://h/a/index.m3u8")
           (lit "/content/drive/MyDrive/M3U8/a.mp4") good_env ∅).
  vm_compute. reflexivity.
Defined.

Ltac absent_from_log H :=
  repeat (apply elem_of_cons in H as [H|H];
          [try discriminate H; try (vm_compute in H; discriminate H)|]);
  try (apply elem_of_nil in H; contradiction).

Ltac log_case :=
  split; [first [apply prefix_nil | by eexists]|];
  split; [intros Hin; first [reflexivity | absent_from_log Hin]|];
  split; [intros Hin; first [split; reflexivity | absent_from_log Hin]|];
  reflexivity.

(** X11: The commands run in a fixed order and stop at the first one that
    fails: the concatenation runs only after a segment fetch that returned
    zero, the transcode only after a concatenation that returned zero.
    Every attempt starts with the manifest fetch. *)
Theorem commands_run_in_order (url out : str) (e : attempt_env) (fs : gset str) :
  let r := download_and_merge url out e fs in
  List.filter is_tool_run (snd r)
    `prefix_of` [ERun aria_cmd; ERun cat_cmd; ERun ffmpeg_cmd]
  /\ (ERun cat_cmd ∈ snd r -> cmd_ok e aria_cmd = true)
  /\ (ERun ffmpeg_cmd ∈ snd r -> cmd_ok e aria_cmd = true /\ cmd_ok e cat_cmd = true)
  /\ head (snd r) = Some (EGet url).
Proof.
  cbv zeta. unfold download_and_merge, try_block.
  unfold fetch, write_text, safe_run, copy_to, log, raise, mbind, M_bind, bind, ret.
  destruct (http_get e url) as [body|]; [|log_case].
  destruct (write_file e (lit "playlist.m3u8")); try log_case.
  destruct (chunk_urls_of url body) as [|c0 cs]; [log_case|].
  destruct (write_file e (lit "chunks.txt")); try log_case.
  destruct (cmd_ok e aria_cmd) eqn:Ea; [|log_case].
  destruct (cmd_ok e cat_cmd) eqn:Eb; [|log_case].
  destruct (cmd_ok e ffmpeg_cmd) eqn:Ec; [|log_case].
  destruct (copy_file e); log_case.
Qed.

Lemma commands_run_in_order_witness :
  cmd_ok good_env aria_cmd = true /\ cmd_ok good_env cat_cmd = true.
Proof.
  destruct (commands_run_in_order (lit "http://h/a/index.m3u8")
              (lit "/content/drive/MyDrive/M3U8/a.mp4") good_env ∅)
    as (_ & _ & H & _).
  apply H. apply (list_elem_of_lookup_2 _ 5%nat). vm_compute. reflexivity.
Defined.

(** ** What cleanup leaves alone *)

Lemma remove_files_subset (e : attempt_env) (files : list str) (fs : gset str) :
  remove_files e files fs ⊆ fs.
Proof.
  revert fs. induction files as [|f rest IH]; intros fs; simpl; [set_solver|].
  destruct (decide (f ∈ fs)); [|apply IH].
  destruct (remove_ok e f); [|set_solver].
  specialize (IH (fs ∖ {[f]})). set_solver.
Qed.

Lemma remove_files_keeps (e : attempt_env) (files : list str) (fs : gset str)
  (p : str) :
  p ∉ files -> p ∈ fs -> p ∈ remove_files e files fs.
Proof.
  revert fs. induction files as [|f rest IH]; intros fs Hp Hin; simpl;
    [exact Hin|].
  assert (p <> f) as Hne by (intros ->; apply Hp; left).
  assert (p ∉ rest) as Hrest by (intros H; apply Hp; right; exact H).
  destruct (decide (f ∈ fs)); [|apply IH; assumption].
  destruct (remove_ok e f); [|exact Hin].
  apply IH; [exact Hrest | set_solver].
Qed.

Lemma rmtree_keeps (p : str) (fs : gset str) (q : str) :
  q <> p -> startswith (p ++ lit "/") q = false -> q ∈ fs -> q ∈ rmtree p fs.
Proof. unfold rmtree. rewrite elem_of_filter. tauto. Qed.

Lemma cleanup_subset (e : attempt_env) (fs : gset str) : cleanup e fs ⊆ fs.
Proof.
  unfold cleanup.
  destruct (decide (lit "chunks" ∈ fs)); [|apply remove_files_subset].
  destruct (remove_ok e (lit "chunks")); [|set_solver].
  etransitivity; [apply remove_files_subset|].
  intros q Hq. apply rmtree_gone in Hq as [Hq _]. exact Hq.
Qed.

Lemma cleanup_keeps (e : attempt_env) (fs : gset str) (p : str) :
  p ∉ cleanup_targets -> startswith (lit "chunks/") p = false ->
  p ∈ fs -> p ∈ cleanup e fs.
Proof.
  intros Hp Hpre Hin. unfold cleanup. unfold cleanup_targets in Hp.
  assert (p <> lit "chunks") as Hne by (intros ->; apply Hp; left).
  assert (p ∉ [lit "temp.ts"; lit "playlist.m3u8"; lit "chunks.txt";
               lit "output.mp4"]) as Hfiles
    by (intros H; apply Hp; right; exact H).
  destruct (decide (lit "chunks" ∈ fs));
    [|apply remove_files_keeps; assumption].
  destruct (remove_ok e (lit "chunks")); [|exact Hin].
  apply remove_files_keeps; [exact Hfiles|].
  apply rmtree_keeps; assumption.
Qed.

(** X12: The cleanup block only removes: it adds nothing to the working
    directory, and a path that is neither one of its five targets nor
    inside the segment directory is left exactly as it was, also when a
    removal fails. *)
Theorem cleanup_touches_only_scratch (e : attempt_env) (fs : gset str) :
  cleanup e fs ⊆ fs
  /\ forall p : str,
      p ∉ cleanup_targets -> startswith (lit "chunks/") p = false ->
      p ∈ fs -> p ∈ cleanup e fs.
Proof. split; [apply cleanup_subset | intros p; apply cleanup_keeps]. Qed.

Lemma cleanup_touches_only_scratch_witness :
  lit "/content/drive/MyDrive/M3U8/a.mp4"
  ∈ cleanup stuck_env {[lit "/content/drive/MyDrive/M3U8/a.mp4"; lit "chunks"]}.
Proof.
  apply (proj2 (cleanup_touches_only_scratch stuck_env
                  {[lit "/content/drive/MyDrive/M3U8/a.mp4"; lit "chunks"]})).
  - intros H. unfold cleanup_targets in H.
    repeat (apply elem_of_cons in H as [H|H]; [discriminate H|]).
    apply elem_of_nil in H. exact H.
  - reflexivity.
  - set_solver.
Defined.

(** X13: After a successful attempt the destination file is there: the cleanup
    that follows the copy does not remove it, provided the destination is
    not itself one of the scratch paths. *)
Theorem successful_attempt_leaves_output (url out : str) (e : attempt_env)
  (fs : gset str) :
  fst (fst (download_and_merge url out e fs)) = true ->
  out ∉ cleanup_targets -> startswith (lit "chunks/") out = false ->
  out ∈ snd (fst (download_and_merge url out e fs)).
Proof.
  rewrite download_result_indep. intros H Hout Hpre.
  destruct (download_success url out e fs H) as (body & _ & _ & _ & fs1 & ->).
  apply cleanup_keeps; [exact Hout | exact Hpre | set_solver].
Qed.

Lemma successful_attempt_leaves_output_witness :
  lit "/content/drive/MyDrive/M3U8/a.mp4"
  ∈ snd (fst (download_and_merge (lit "http://h/a/index.m3u8")
                (lit "/content/drive/MyDrive/M3U8/a.mp4") good_env ∅)).
Proof.
  apply (successful_attempt_leaves_output (lit "http://h/a/index.m3u8")
           (lit "/content/drive/MyDrive/M3U8/a.mp4") good_env ∅).
  - vm_compute. reflexivity.
  - intros H. unfold cleanup_targets in H.
    repeat (apply elem_of_cons in H as [H|H]; [discriminate H|]).
    apply elem_of_nil in H. exact H.
  - reflexivity.
Defined.

(** ** Where a job is saved *)

Lemma clean_filename_no_slash label : slash ∉ clean_filename label.
Proof. intros H. apply clean_filename_legal in H. discriminate H. Qed.

Lemma path_join_drive_folder name :
  startswith (lit "/") name = false ->
  path_join DRIVE_FOLDER name = DRIVE_FOLDER ++ lit "/" ++ name.
Proof. intros H. unfold path_join. rewrite H. reflexivity. Qed.

Lemma no_slash_not_absolute name :
  slash ∉ name -> startswith (lit "/") name = false.
Proof.
  destruct name as [|c r]; [reflexivity|]. intros H.
  change (startswith (lit "/") (c :: r)) with ((47 =? c) && true).
  destruct (N.eqb_spec 47 c) as [<-|]; [|reflexivity].
  exfalso. apply H. left.
Qed.

Lemma parse_result_shape t link fname :
  parse_message_text t = (Some link, fname) ->
  is_m3u8_link link = true /\ (exists part, link = strip part)
  /\ (fname = None
      \/ exists label, fname = Some (clean_filename label ++ lit ".mp4")).
Proof.
  unfold parse_message_text.
  destruct (split_once bar t) as [[label after]|].
  - destruct (is_m3u8_link (strip after)) eqn:E; intros [= <- <-].
    split; [exact E|]. split; [eexists; reflexivity|]. right. eexists. reflexivity.
  - destruct (is_m3u8_link (strip t)) eqn:E; intros [= <- <-].
    split; [exact E|]. split; [eexists; reflexivity|]. left. reflexivity.
Qed.

Lemma retry_second_event u d f n envs fs :
  snd (retry u d f n envs fs) !! 1%nat = Some (EDownload u d).
Proof.
  unfold retry. change (seq 1 MAX_RETRIES) with [1; 2; 3]%nat.
  destruct (attempt_succeeds u d (envs 1%nat)) eqn:E.
  - rewrite (attempt_loop_success _ _ f n _ _ _ fs E). reflexivity.
  - destruct (attempt_loop_failure _ _ f n _ _ [2; 3]%nat fs E) as [fs1 ->].
    reflexivity.
Qed.

(** X14: Every job the parser produces is saved directly inside the drive
    folder: the destination is the folder, a slash and the file name; the
    file name ends with .mp4; a file name taken from a label holds no
    slash, and neither does the default one as long as the formatted time
    holds none.  The downloader is called with that destination. *)
Theorem job_saved_inside_drive_folder (t link : str) (fname : option str)
  (now_text : str) :
  parse_message_text t = (Some link, fname) ->
  job_dest_path now_text fname
  = DRIVE_FOLDER ++ lit "/" ++ job_filename now_text fname
  /\ (exists stem, job_filename now_text fname = stem ++ lit ".mp4")
  /\ (slash ∉ now_text -> slash ∉ job_filename now_text fname)
  /\ forall s e rest,
      queue s = (link, fname) :: rest -> now e = now_text ->
      snd (process_queue s e) !! 2%nat
      = Some (EDownload link
                (DRIVE_FOLDER ++ lit "/" ++ job_filename now_text fname)).
Proof.
  intros H. destruct (parse_result_shape t link fname H) as (_ & _ & Hshape).
  assert (job_dest_path now_text fname
          = DRIVE_FOLDER ++ lit "/" ++ job_filename now_text fname
          /\ (exists stem, job_filename now_text fname = stem ++ lit ".mp4")
          /\ (slash ∉ now_text -> slash ∉ job_filename now_text fname))
    as (Hd & He & Hs).
  { destruct Hshape as [-> | [label ->]].
    - split; [reflexivity|].
      split; [exists (lit "video_" ++ now_text); cbn [job_filename];
              rewrite <- app_assoc; reflexivity|].
      intros Hn Hin. cbn [job_filename] in Hin.
      apply elem_of_app in Hin as [Hin|Hin].
      + repeat (apply elem_of_cons in Hin as [Hin|Hin]; [discriminate Hin|]).
        apply elem_of_nil in Hin. exact Hin.
      + apply elem_of_app in Hin as [Hin|Hin]; [exact (Hn Hin)|].
        repeat (apply elem_of_cons in Hin as [Hin|Hin]; [discriminate Hin|]).
        apply elem_of_nil in Hin. exact Hin.
    - assert (slash ∉ clean_filename label ++ lit ".mp4") as Hno.
      { intros Hin. apply elem_of_app in Hin as [Hin|Hin].
        - exact (clean_filename_no_slash label Hin).
        - repeat (apply elem_of_cons in Hin as [Hin|Hin]; [discriminate Hin|]).
          apply elem_of_nil in Hin. exact Hin. }
      assert (job_filename now_text (Some (clean_filename label ++ lit ".mp4"))
              = clean_filename label ++ lit ".mp4") as Hf.
      { unfold job_filename.
        destruct (clean_filename label ++ lit ".mp4") as [|c r] eqn:E;
          [|reflexivity].
        apply app_eq_nil in E as [_ E]. discriminate E. }
      unfold job_dest_path. rewrite Hf. split.
      + apply path_join_drive_folder, no_slash_not_absolute. exact Hno.
      + split; [eexists; reflexivity | intros _; exact Hno]. }
  split; [exact Hd|]. split; [exact He|]. split; [exact Hs|].
  intros s e rest Hq Hnow.
  rewrite (process_queue_cons s e link fname rest Hq). cbv zeta. cbn [snd].
  rewrite Hnow, <- Hd. cbn [lookup list_lookup].
  apply lookup_app_l_Some. apply retry_second_event.
Qed.

Lemma job_saved_inside_drive_folder_witness :
  job_dest_path (lit "20240101_000000") (Some (lit "Algebra Lecture.mp4"))
  = lit "/content/drive/MyDrive/M3U8/Algebra Lecture.mp4".
Proof.
  rewrite (proj1 (job_saved_inside_drive_folder
                    (lit "Algebra Lecture | https://cdn.example/a/index.m3u8")
                    (lit "https://cdn.example/a/index.m3u8")
                    (Some (lit "Algebra Lecture.mp4"))
                    (lit "20240101_000000") eq_refl)).
  reflexivity.
Defined.

(** ** Stability of the parser and of the sanitizer *)

Lemma lstrip_id s :
  (forall c r, s = c :: r -> isspace c = false) -> lstrip s = s.
Proof.
  destruct s as [|c r]; [reflexivity|]. intros H. simpl.
  rewrite (H c r eq_refl). reflexivity.
Qed.

Lemma strip_strip s : strip (strip s) = strip s.
Proof.
  assert (lstrip (strip s) = strip s) as Hl.
  { apply lstrip_id. intros c r E. exact (strip_head s c r E). }
  unfold strip at 1. rewrite Hl. unfold rstrip.
  rewrite lstrip_id; [apply rev_involutive|].
  intros c r E. apply (strip_last s).
  rewrite <- (rev_involutive (strip s)), E. simpl. apply last_snoc.
Qed.

(** X15: The link of an accepted message is already in its final form: it has
    no whitespace at its ends, it passes the link test itself, and, when
    it holds no separator, sending it alone gives the same link. *)
Theorem accepted_link_is_stable (t link : str) (fname : option str) :
  parse_message_text t = (Some link, fname) ->
  strip link = link
  /\ is_m3u8_link link = true
  /\ link <> []
  /\ (bar ∉ link -> parse_message_text link = (Some link, None)).
Proof.
  intros H. destruct (parse_result_shape t link fname H) as (Hl & [part ->] & _).
  assert (strip (strip part) = strip part) as Hs by apply strip_strip.
  split; [exact Hs|]. split; [exact Hl|].
  split; [apply is_m3u8_link_nonempty; exact Hl|].
  intros Hbar. unfold parse_message_text.
  apply split_once_None in Hbar. rewrite Hbar, Hs, Hl. reflexivity.
Qed.

Lemma accepted_link_is_stable_witness :
  parse_message_text (lit "https://cdn.example/a/index.m3u8")
  = (Some (lit "https://cdn.example/a/index.m3u8"), None).
Proof.
  destruct (accepted_link_is_stable
              (lit "Algebra Lecture | https://cdn.example/a/index.m3u8")
              (lit "https://cdn.example/a/index.m3u8")
              (Some (lit "Algebra Lecture.mp4")) eq_refl) as (_ & _ & _ & H).
  apply H. intros Hin.
  repeat (apply elem_of_cons in Hin as [Hin|Hin]; [discriminate Hin|]).
  apply elem_of_nil in Hin. exact Hin.
Defined.

Lemma strip_keeps_legal s :
  Forall (fun c => illegal c = false) s ->
  Forall (fun c => illegal c = false) (strip s).
Proof.
  intros H. destruct (strip_decomp s) as (pre & post & E & _ & _).
  rewrite E in H. apply Forall_app in H as [_ H].
  apply Forall_app in H as [H _]. exact H.
Qed.

(** X16: Sanitizing is idempotent, and a name that holds no illegal character
    and no whitespace at its ends is returned unchanged. *)
Theorem clean_filename_idempotent (name : str) :
  clean_filename (clean_filename name) = clean_filename name
  /\ (Forall (fun c => illegal c = false) name -> strip name = name ->
      clean_filename name = name).
Proof.
  unfold clean_filename. split.
  - rewrite (re_sub_illegal_id (strip (re_sub_illegal name))).
    + apply strip_strip.
    + apply strip_keeps_legal, re_sub_illegal_legal.
  - intros Hl Hs. rewrite (re_sub_illegal_id name Hl). exact Hs.
Qed.

Lemma clean_filename_idempotent_witness :
  clean_filename (lit "Algebra Lecture") = lit "Algebra Lecture".
Proof.
  apply (proj2 (clean_filename_idempotent (lit "Algebra Lecture"))).
  - repeat constructor.
  - reflexivity.
Defined.

(** ** Line ends of the manifest *)

Lemma kept_lines_cons raw lines :
  List.filter keeps_line (List.map strip (raw :: lines))
  = (if keeps_line (strip raw) then [strip raw] else [])
    ++ List.filter keeps_line (List.map strip lines).
Proof. cbn [List.map List.filter]. destruct (keeps_line (strip raw)); reflexivity. Qed.

Lemma splitlines_from_break x :
  islinebreak x = true ->
  forall n s cur, (length s <= n)%nat ->
    List.filter keeps_line (List.map strip (splitlines_from cur (s ++ [x])))
    = List.filter keeps_line (List.map strip (splitlines_from cur s)).
Proof.
  intros Hx.
  assert (forall cur,
            List.filter keeps_line (List.map strip (splitlines_from cur [x]))
            = List.filter keeps_line (List.map strip (splitlines_from cur [])))
    as Hbase.
  { intros cur. cbn [splitlines_from]. rewrite Hx. destruct cur; reflexivity. }
  induction n as [|n IH]; intros s cur Hn.
  - destruct s; [apply Hbase | simpl in Hn; lia].
  - destruct s as [|c r]; [apply Hbase|].
    simpl in Hn. cbn [app splitlines_from].
    destruct (islinebreak c).
    + rewrite !kept_lines_cons. f_equal.
      destruct r as [|d r0].
      * cbn [app]. destruct ((c =? 13) && (x =? 10)); [reflexivity|].
        apply (Hbase []).
      * cbn [app]. simpl in Hn.
        destruct ((c =? 13) && (d =? 10)).
        -- apply IH. lia.
        -- apply (IH (d :: r0)). simpl. lia.
    + apply IH. lia.
Qed.

(** X17: A line end at the end of the manifest does not change the segment
    list: neither a final line feed, nor a final carriage return, nor the
    two together. *)
Theorem trailing_newline_is_ignored (m3u8_url m3u8_content : str) :
  chunk_urls_of m3u8_url (m3u8_content ++ [10])
  = chunk_urls_of m3u8_url m3u8_content
  /\ chunk_urls_of m3u8_url (m3u8_content ++ [13])
     = chunk_urls_of m3u8_url m3u8_content
  /\ chunk_urls_of m3u8_url (m3u8_content ++ [13; 10])
     = chunk_urls_of m3u8_url m3u8_content.
Proof.
  unfold chunk_urls_of, splitlines. rewrite !collect_chunks_spec.
  assert (forall x s, islinebreak x = true ->
            List.filter keeps_line (List.map strip (splitlines_from [] (s ++ [x])))
            = List.filter keeps_line (List.map strip (splitlines_from [] s)))
    as Hend.
  { intros x s Hx. apply (splitlines_from_break x Hx (length s)). lia. }
  split; [rewrite Hend by reflexivity; reflexivity|].
  split; [rewrite Hend by reflexivity; reflexivity|].
  change [13; 10] with ([13] ++ [10]). rewrite app_assoc.
  rewrite !Hend by reflexivity. reflexivity.
Qed.

(** ** Attempts inside the retry loop *)

Lemma download_one_get url out e fs :
  count is_get (snd (download_and_merge url out e fs)) = 1%nat.
Proof.
  unfold download_and_merge, try_block.
  unfold fetch, write_text, safe_run, copy_to, log, raise, mbind, M_bind, bind, ret.
  destruct (http_get e url) as [body|]; [|reflexivity].
  destruct (write_file e (lit "playlist.m3u8")); try reflexivity.
  destruct (chunk_urls_of url body); [reflexivity|].
  destruct (write_file e (lit "chunks.txt")); try reflexivity.
  destruct (cmd_ok e aria_cmd); [|reflexivity].
  destruct (cmd_ok e cat_cmd); [|reflexivity].
  destruct (cmd_ok e ffmpeg_cmd); [|reflexivity].
  destruct (copy_file e); reflexivity.
Qed.

Lemma inner_no_numbers tr :
  Forall (fun ev => is_inner ev = true) tr ->
  attempt_numbers tr = [] /\ failed_numbers tr = []
  /\ count is_download tr = 0%nat /\ count is_sleep tr = 0%nat.
Proof.
  induction 1 as [|ev l Hev _ (H1 & H2 & H3 & H4)]; [repeat split|].
  destruct ev as [[]| | | | | |]; try discriminate Hev;
    rewrite !count_cons; cbn [is_download is_sleep]; rewrite H3, H4;
    repeat split; assumption.
Qed.

Lemma attempt_loop_numbers attempts m3u8_url dest_path filename remaining envs fs :
  let tr := snd (attempt_loop attempts m3u8_url dest_path filename remaining
                   envs fs) in
  attempt_numbers tr = take (count is_download tr) attempts
  /\ failed_numbers tr = take (count is_sleep tr) attempts
  /\ count is_get tr = count is_download tr
  /\ (count is_sleep tr <= count is_download tr)%nat.
Proof.
  cbv zeta. revert fs. induction attempts as [|k rest IH]; intros fs;
    [repeat split; reflexivity|].
  destruct (inner_no_numbers _ (download_trace_inner m3u8_url dest_path
                                  (envs k) fs)) as (N1 & N2 & N3 & N4).
  pose proof (download_one_get m3u8_url dest_path (envs k) fs) as G.
  destruct (attempt_succeeds m3u8_url dest_path (envs k)) eqn:E.
  - rewrite (attempt_loop_success _ _ filename remaining _ k rest fs E).
    cbn [fst snd]. unfold attempt_numbers, failed_numbers in *.
    repeat (rewrite count_app || rewrite count_cons).
    rewrite !omap_app, N3, N4, G.
    cbn [omap list_omap app is_download is_sleep is_get Nat.add count
           List.filter length].
    rewrite N1, N2. repeat split. lia.
  - destruct (attempt_loop_failure _ _ filename remaining _ k rest fs E)
      as [fs1 ->]. cbn [fst snd]. destruct (IH fs1) as (I1 & I2 & I3 & I4).
    unfold attempt_numbers, failed_numbers in *.
    repeat (rewrite count_app || rewrite count_cons).
    rewrite !omap_app, N3, N4, G.
    cbn [omap list_omap app is_download is_sleep is_get Nat.add].
    rewrite N1, N2, I1, I2, I3. repeat split. lia.
Qed.

(** X18: In the log of a job the attempts are announced as 1, 2, 3 in order,
    one number per downloader call; the failure notices carry the same
    numbers, one per delay; and the manifest is fetched anew in every
    attempt. *)
Theorem attempts_numbered_and_refetched (m3u8_url dest_path filename : str)
  (remaining : nat) (envs : nat -> attempt_env) (fs : gset str) :
  let tr := snd (retry m3u8_url dest_path filename remaining envs fs) in
  attempt_numbers tr = seq 1 (count is_download tr)
  /\ failed_numbers tr = seq 1 (count is_sleep tr)
  /\ count is_get tr = count is_download tr
  /\ (1 <= count is_download tr <= 3)%nat.
Proof.
  cbv zeta. unfold retry.
  destruct (attempt_loop_numbers (seq 1 MAX_RETRIES) m3u8_url dest_path filename
              remaining envs fs) as (H1 & H2 & H3 & H4).
  pose proof (attempt_loop_downloads m3u8_url dest_path filename remaining envs
                (seq 1 MAX_RETRIES) fs) as Hle.
  assert (1 <= count is_download
                 (snd (attempt_loop (seq 1 MAX_RETRIES) m3u8_url dest_path
                         filename remaining envs fs)))%nat as Hge.
  { change (seq 1 MAX_RETRIES) with [1; 2; 3]%nat.
    destruct (attempt_succeeds m3u8_url dest_path (envs 1%nat)) eqn:E.
    - rewrite (attempt_loop_success _ _ filename remaining _ _ _ fs E).
      cbn [snd]. rewrite count_app, !count_cons. cbn [is_download]. lia.
    - destruct (attempt_loop_failure _ _ filename remaining _ _ [2; 3]%nat fs E)
        as [fs1 ->]. cbn [snd]. rewrite count_app, !count_cons.
      cbn [is_download]. lia. }
  match goal with |- context [count is_download ?t] => set (tr := t) in * end.
  simpl length in Hle. split; [|split; [|split; [exact H3 | lia]]].
  - rewrite H1. destruct (count is_download tr) as [|[|[|[|n]]]];
      try reflexivity; lia.
  - rewrite H2. destruct (count is_sleep tr) as [|[|[|[|n]]]];
      try reflexivity; lia.
Qed.
